(** * The file-receiving server: name resolver and connection handler

    Shallow embedding of [cmd/server/server.go].  The collision resolver
    ([FileIndex], [NewFileIndexFromSlice], [Resolve]) is pure in-memory
    code and is embedded as functions on a finite map; the connection
    handler [receiveFile] is embedded by explicit state passing over a
    world made of the shared index, the files on disk, the bytes sent
    back and the log, with the results of the I/O calls supplied by an
    environment record. *)

From Stdlib Require Import ZArith Ascii String List Lia.
From Stdlib.Strings Require Import Byte.
From stdpp Require Import list gmap strings pretty.

Local Open Scope string_scope.
Local Open Scope Z_scope.

(** ** Go's [int]

    The server is built for a 64-bit platform: [int] is a 64-bit signed
    integer and [+] wraps around. *)

Definition min_int : Z := - 2 ^ 63.
Definition max_int : Z := 2 ^ 63 - 1.

Definition int_wrap (z : Z) : Z := (z + 2 ^ 63) mod 2 ^ 64 - 2 ^ 63.

Definition int_add (a b : Z) : Z := int_wrap (a + b).

Definition int_range (z : Z) : Prop := min_int <= z <= max_int.

(** ** The standard-library functions the server calls

    Strings are Go strings: sequences of bytes, here [string] over
    [ascii].  Slices [s[i:]] and [s[:j]] are only taken in range by the
    server. *)

Fixpoint slice_from (s : string) (i : nat) : string :=
  match i, s with
  | O, _ => s
  | S i', String _ s' => slice_from s' i'
  | S _, EmptyString => EmptyString
  end.

Fixpoint slice_to (s : string) (j : nat) : string :=
  match j, s with
  | O, _ => EmptyString
  | S j', String c s' => String c (slice_to s' j')
  | S _, EmptyString => EmptyString
  end.

(** [strings.HasPrefix]:
    [len(s) >= len(prefix) && s[:len(prefix)] == prefix]. *)
Definition HasPrefix (s prefix : string) : bool :=
  (String.length prefix <=? String.length s)%nat
  && bool_decide (slice_to s (String.length prefix) = prefix).

(** [strings.HasSuffix]:
    [len(s) >= len(suffix) && s[len(s)-len(suffix):] == suffix]. *)
Definition HasSuffix (s suffix : string) : bool :=
  (String.length suffix <=? String.length s)%nat
  && bool_decide
       (slice_from s (String.length s - String.length suffix) = suffix).

(** [strings.TrimSuffix]. *)
Definition TrimSuffix (s suffix : string) : string :=
  if HasSuffix s suffix
  then slice_to s (String.length s - String.length suffix)
  else s.

(** [strings.LastIndex]: the byte index of the last occurrence of
    [substr] in [s], or [-1].  [LastIndex_from s substr n] tries the
    start positions [n-1], [n-2], ..., [0]. *)
Fixpoint LastIndex_from (s substr : string) (n : nat) : Z :=
  match n with
  | O => -1
  | S i =>
      if bool_decide (slice_to (slice_from s i) (String.length substr) = substr)
      then Z.of_nat i
      else LastIndex_from s substr i
  end.

Definition LastIndex (s substr : string) : Z :=
  if (String.length substr <=? String.length s)%nat
  then LastIndex_from s substr (S (String.length s - String.length substr))
  else -1.

(** [os.IsPathSeparator] of the Unix build. *)
Definition IsPathSeparator (c : ascii) : bool := bool_decide (c = "/"%char).

(** [filepath.Ext]:
    [for i := len(path) - 1; i >= 0 && !os.IsPathSeparator(path[i]); i--]
    returning [path[i:]] at the first dot met, and the empty string otherwise.
    [Ext_from path n] is the loop entered with [i = n - 1]. *)
Fixpoint Ext_from (path : string) (n : nat) : string :=
  match n with
  | O => EmptyString
  | S i =>
      match String.get i path with
      | Some c =>
          if IsPathSeparator c then EmptyString
          else if bool_decide (c = "."%char) then slice_from path i
          else Ext_from path i
      | None => EmptyString
      end
  end.

Definition Ext (path : string) : string := Ext_from path (String.length path).

(** [strconv.Atoi] on a 64-bit platform: an optional sign, then one or more
    decimal digits, and a value that fits [int]; [None] stands for a
    non-nil error (syntax or range). *)
Definition is_digit (c : ascii) : bool :=
  (48 <=? nat_of_ascii c)%nat && (nat_of_ascii c <=? 57)%nat.

Fixpoint parse_digits (s : string) (n : Z) : option Z :=
  match s with
  | EmptyString => Some n
  | String ch s' =>
      if is_digit ch
      then parse_digits s' (n * 10 + Z.of_nat (nat_of_ascii ch - 48))
      else None
  end.

Definition Atoi (s : string) : option Z :=
  match s with
  | EmptyString => None
  | String c0 rest =>
      let neg := bool_decide (c0 = "-"%char) in
      let digits :=
        if neg || bool_decide (c0 = "+"%char) then rest else s in
      match digits with
      | EmptyString => None
      | _ =>
          match parse_digits digits 0 with
          | Some un =>
              let n := if neg then - un else un in
              if (min_int <=? n) && (n <=? max_int) then Some n else None
          | None => None
          end
      end
  end.

(** [fmt.Sprintf("%s%s%d%s", a, b, n, c)]; [%d] prints a decimal with a
    leading [-] for negative numbers. *)
Definition Sprintf_s_s_d_s (a b : string) (n : Z) (c : string) : string :=
  a +:+ b +:+ pretty n +:+ c.

(** ** The name resolver *)

Definition copySuffix : string := "_copy".

Definition getBareFilename (filename : string) : string :=
  TrimSuffix filename (Ext filename).

(** The struct [FileIndex].  Its embedded [sync.Mutex] makes every
    [Resolve] call one atomic step; calls are modelled in the order in
    which they take the lock. *)
Record FileIndex : Type := mkFileIndex { index : gmap string Z }.

(** The body of the inner loop of [NewFileIndexFromSlice] up to the
    comparison: the copy number read from [copyName], or [None] where the
    code says [continue]. *)
Definition copyNumber (fileBare copyName : string) : option Z :=
  if negb (HasPrefix copyName fileBare) then None
  else
    let copyName' := slice_from copyName (String.length fileBare) in
    let copyBare := getBareFilename copyName' in
    let numStart := LastIndex copyBare copySuffix in
    if numStart =? -1 then None
    else
      let numStart := numStart + Z.of_nat (String.length copySuffix) in
      Atoi (slice_from copyBare (Z.to_nat numStart)).

Definition scan_step (fileBare : string) (latestCopy : Z) (copyName : string)
  : Z :=
  match copyNumber fileBare copyName with
  | Some copyNum => if latestCopy <? copyNum then copyNum else latestCopy
  | None => latestCopy
  end.

(** The inner loop: [latestCopy] once every name has been scanned. *)
Definition latestCopy_of (filenames : list string) (filename : string) : Z :=
  fold_left (scan_step (getBareFilename filename)) filenames 0.

(** [NewFileIndexFromSlice]; the returned error is always [nil]. *)
Definition NewFileIndexFromSlice (filenames : list string) : FileIndex :=
  mkFileIndex
    (fold_left
       (fun idx filename => <[filename := latestCopy_of filenames filename]> idx)
       filenames ∅).

(** [Resolve], returning the name and the updated index. *)
Definition Resolve (fi : FileIndex) (filename : string) : string * FileIndex :=
  match index fi !! filename with
  | Some copyNum =>
      let bare := getBareFilename filename in
      let ext := Ext filename in
      let uniqueName :=
        Sprintf_s_s_d_s bare copySuffix (int_add copyNum 1) ext in
      let idx := <[filename := int_add copyNum 1]> (index fi) in
      (uniqueName, mkFileIndex (<[uniqueName := 0]> idx))
  | None => (filename, mkFileIndex (<[filename := 0]> (index fi)))
  end.

(** The name [Resolve] generates for [filename] and copy number [n]. *)
Definition copy_name (filename : string) (n : Z) : string :=
  Sprintf_s_s_d_s (getBareFilename filename) copySuffix n (Ext filename).

(** A finite sequence of [Resolve] calls on one resolver: the names
    returned, in order, and the final index. *)
Fixpoint resolve_all (fi : FileIndex) (requests : list string)
  : list string * FileIndex :=
  match requests with
  | [] => ([], fi)
  | r :: rs =>
      let '(name, fi1) := Resolve fi r in
      let '(names, fi2) := resolve_all fi1 rs in
      (name :: names, fi2)
  end.

(** ** The counter of the specification

    The seeding rule in the specification's words: among the input names
    that start with [base(F)], strip that prefix, strip the final extension
    of the remainder, find the rightmost copy-suffix token in what is left
    and parse the text after it as an integer; a name without the token or
    with a tail that does not parse contributes nothing. *)
Definition spec_copy_number (base C : string) : option Z :=
  let remainder := slice_from C (String.length base) in
  let stem := getBareFilename remainder in
  let at_token := LastIndex stem copySuffix in
  if at_token =? -1 then None
  else Atoi (slice_from stem (Z.to_nat at_token + String.length copySuffix)).

Definition spec_copy_numbers (filenames : list string) (F : string) : list Z :=
  omap (spec_copy_number (getBareFilename F))
    (List.filter (fun C => HasPrefix C (getBareFilename F)) filenames).

(** The maximum of the numbers found, and 0 when there is none. *)
Definition max_or_zero (found : list Z) : Z :=
  match found with
  | [] => 0
  | n :: found' => fold_right Z.max n found'
  end.

Definition spec_counter (filenames : list string) (F : string) : Z :=
  max_or_zero (spec_copy_numbers filenames F).

(** The same rule where a negative number contributes nothing either. *)
Definition spec_counter_nonneg (filenames : list string) (F : string) : Z :=
  max_or_zero (List.filter (fun n => 0 <=? n) (spec_copy_numbers filenames F)).

(** A dotfile name: a leading dot, and neither a dot nor a path separator
    after it. *)
Fixpoint plain_chars (s : string) : bool :=
  match s with
  | EmptyString => true
  | String c s' =>
      negb (bool_decide (c = "."%char)) && negb (IsPathSeparator c)
      && plain_chars s'
  end.

Definition dotfile (name : string) : bool :=
  match name with
  | String c rest => bool_decide (c = "."%char) && plain_chars rest
  | EmptyString => false
  end.

(** ** The connection handler *)

(** An error value: [io.EOF] or anything else. *)
Inductive error : Type := EOF | OtherError.

(** What the peer, the network and the disk answer to the calls made for
    one connection. *)
Record Env : Type := mkEnv {
  (** [fmt.Fscanf(con, "%s\n", &filename)]: the token, or [None] when
      [err != nil] *)
  env_scan : option string;
  (** [fmt.Fprint(con, serverFilename)] returns a nil error *)
  env_send_ok : bool;
  (** [os.Create(serverFilename)] returns a nil error *)
  env_create_ok : bool;
  (** the successive results [(buf[:n], err)] of [zr.Read(buf)] *)
  env_reads : list (list byte * option error);
  (** once these are used up, [zr.Read] keeps returning [(0, err)] with
      this error *)
  env_read_last : error;
  (** the [i]-th [file.Write] returns a nil error *)
  env_write_ok : nat -> bool;
  (** [zr.Close()] returns a nil error *)
  env_zclose_ok : bool
}.

Inductive LogEntry : Type :=
  | LogNoName
  | LogNotSent
  | LogNotCreated (name : string)
  | LogReceiving (name : string)
  | LogNotReceived (name : string)
  | LogCloseWarning (name : string)
  | LogReceived (name : string) (fileSize : Z).

Record World : Type := mkWorld {
  w_index : FileIndex;
  w_files : gmap string (list byte);
  (** what has been written to the connection *)
  w_sent : list string;
  w_log : list LogEntry;
  (** the deferred [con.Close()] has run *)
  w_closed : bool
}.

Definition set_index (fi : FileIndex) (w : World) : World :=
  mkWorld fi (w_files w) (w_sent w) (w_log w) (w_closed w).

Definition set_file (name : string) (content : list byte) (w : World) : World :=
  mkWorld (w_index w) (<[name := content]> (w_files w)) (w_sent w) (w_log w)
    (w_closed w).

Definition send (s : string) (w : World) : World :=
  mkWorld (w_index w) (w_files w) (w_sent w ++ [s]) (w_log w) (w_closed w).

Definition log (e : LogEntry) (w : World) : World :=
  mkWorld (w_index w) (w_files w) (w_sent w) (w_log w ++ [e]) (w_closed w).

Definition close_con (w : World) : World :=
  mkWorld (w_index w) (w_files w) (w_sent w) (w_log w) true.

(** The receive loop of [receiveFile]: [Some] of the content written and
    the byte count when the loop is left by [break], [None] with the
    content written so far when it is left by [return]. *)
Fixpoint receive_loop (reads : list (list byte * option error)) (last : error)
    (write_ok : nat -> bool) (i : nat) (content : list byte) (fileSize : Z)
  : list byte * option Z :=
  match reads with
  | [] =>
      match last with
      | EOF => (content, Some fileSize)
      | OtherError => (content, None)
      end
  | (chunk, err) :: reads' =>
      if (length chunk =? 0)%nat then
        match err with
        | Some EOF => (content, Some fileSize)
        | _ => (content, None)
        end
      else
        let fileSize := int_add fileSize (Z.of_nat (length chunk)) in
        if write_ok i
        then receive_loop reads' last write_ok (S i) (content ++ chunk) fileSize
        else (content, None)
  end.

(** [receiveFile] from [os.Create] on. *)
Definition store_stream (env : Env) (serverFilename : string) (w : World)
  : World :=
  if negb (env_create_ok env) then log (LogNotCreated serverFilename) w
  else
    let w := set_file serverFilename [] w in
    let w := log (LogReceiving serverFilename) w in
    match receive_loop (env_reads env) (env_read_last env) (env_write_ok env)
            0 [] 0 with
    | (content, None) =>
        log (LogNotReceived serverFilename) (set_file serverFilename content w)
    | (content, Some fileSize) =>
        let w := set_file serverFilename content w in
        let w :=
          if env_zclose_ok env then w
          else log (LogCloseWarning serverFilename) w in
        log (LogReceived serverFilename fileSize) w
    end.

Definition receiveFile (env : Env) (w : World) : World :=
  match env_scan env with
  | None => close_con (log LogNoName w)
  | Some filename =>
      let '(serverFilename, fi) := Resolve (w_index w) filename in
      let w := set_index fi w in
      let w :=
        if env_send_ok env then send serverFilename w else log LogNotSent w in
      close_con (store_stream env serverFilename w)
  end.


(** Every byte of [s] satisfies [p]. *)
Fixpoint all_chars (p : ascii -> bool) (s : string) : bool :=
  match s with
  | EmptyString => true
  | String c s' => p c && all_chars p s'
  end.

(** The bytes [%d] can print. *)
Definition digit_or_minus (c : ascii) : bool :=
  is_digit c || bool_decide (c = "-"%char).

(** Inputs used to run the handler below: a server started in a directory
    that holds ["notes.txt"], a connection closed before any token was
    sent, and a connection that sends ["notes.txt"] and the two bytes
    ["hi"] but on which the reply cannot be written. *)
Definition example_world : World :=
  mkWorld (NewFileIndexFromSlice ["notes.txt"]) ∅ [] [] false.

Definition example_env_no_name : Env :=
  mkEnv None true true [] EOF (fun _ => true) true.

Definition example_env_no_reply : Env :=
  mkEnv (Some "notes.txt") false true
    [(["h"%byte; "i"%byte], None); ([], Some EOF)] EOF (fun _ => true) true.

(** A connection that sends ["notes.txt"] and the two bytes ["hi"], with
    every call succeeding. *)
Definition example_env_clean : Env :=
  mkEnv (Some "notes.txt") true true
    [(["h"%byte], None); (["i"%byte], Some EOF)] EOF (fun _ => true) true.

(** The same connection when [os.Create] fails. *)
Definition example_env_no_create : Env :=
  mkEnv (Some "notes.txt") true false
    [(["h"%byte], None); (["i"%byte], Some EOF)] EOF (fun _ => true) true.

(** * Properties *)

(** ** Evaluation on small inputs *)

Example seed_demo :
  index (NewFileIndexFromSlice ["a.txt"; "a_copy3.txt"; "b.txt"]) !! "a.txt"
  = Some 3.
Proof. vm_compute. reflexivity. Qed.

Example seed_non_numeric :
  index (NewFileIndexFromSlice
           ["report.txt"; "report_copy2.txt"; "report_copyX.txt"])
    !! "report.txt" = Some 2.
Proof. vm_compute. reflexivity. Qed.

Example resolve_demo :
  fst (resolve_all (NewFileIndexFromSlice ["n.txt"]) ["n.txt"; "n.txt"; "x"])
  = ["n_copy1.txt"; "n_copy2.txt"; "x"].
Proof. vm_compute. reflexivity. Qed.

Example Ext_demo :
  Ext "a.tar.gz" = ".gz" /\ Ext "dir.d/file" = EmptyString /\ Ext ".bashrc" = ".bashrc"
  /\ getBareFilename "a.tar.gz" = "a.tar".
Proof. vm_compute. auto. Qed.

Example Ext_stops_at_separator :
  Ext "./x" = EmptyString
  /\ fst (Resolve (mkFileIndex {[ "./x" := 0 ]}) "./x") = "./x_copy1".
Proof. vm_compute. auto. Qed.

Example Atoi_demo :
  Atoi "12" = Some 12 /\ Atoi "-5" = Some (-5) /\ Atoi "+7" = Some 7
  /\ Atoi EmptyString = None /\ Atoi "-" = None /\ Atoi "1x" = None
  /\ Atoi "9223372036854775807" = Some max_int
  /\ Atoi "9223372036854775808" = None.
Proof. vm_compute. repeat split; reflexivity. Qed.

(** ** Strings *)

Section strings.
Implicit Types s t e : string.

Lemma app_cons c s t : String c s +:+ t = String c (s +:+ t).
Proof. reflexivity. Qed.

Lemma length_app s t :
  String.length (s +:+ t) = (String.length s + String.length t)%nat.
Proof. induction s as [|c s IH]; simpl; [done | by rewrite IH]. Qed.

Lemma app_cancel_r s t e : s +:+ e = t +:+ e -> s = t.
Proof.
  revert t. induction s as [|c s IH]; intros [|d t] H; simpl in *.
  - done.
  - apply (f_equal String.length) in H.
    rewrite !length_app in H. simpl in H. lia.
  - apply (f_equal String.length) in H.
    rewrite !length_app in H. simpl in H. lia.
  - injection H as -> H. f_equal. by apply IH.
Qed.

Lemma slice_to_from s i : slice_to s i +:+ slice_from s i = s.
Proof.
  revert s. induction i as [|i IH]; intros [|c s]; simpl; try done.
  by rewrite app_cons, IH.
Qed.

Lemma length_slice_from s i :
  String.length (slice_from s i) = (String.length s - i)%nat.
Proof.
  revert s. induction i as [|i IH]; intros [|c s]; simpl; done.
Qed.

Lemma slice_from_length s : slice_from s (String.length s) = EmptyString.
Proof. induction s as [|c s IH]; simpl; done. Qed.

(** Trimming a suffix that was cut at index [i] leaves the first [i]
    bytes. *)
Lemma TrimSuffix_slice_from s i :
  (i <= String.length s)%nat -> TrimSuffix s (slice_from s i) = slice_to s i.
Proof.
  intros Hi. unfold TrimSuffix, HasSuffix.
  rewrite length_slice_from.
  replace (String.length s - (String.length s - i))%nat with i by lia.
  rewrite bool_decide_eq_true_2 by done.
  replace (String.length s - i <=? String.length s)%nat with true; [done|].
  symmetry. apply Nat.leb_le. lia.
Qed.
End strings.

(** ** Extension and bare name *)

Lemma Ext_from_slice path n :
  (n <= String.length path)%nat ->
  exists i, (i <= String.length path)%nat /\ Ext_from path n = slice_from path i.
Proof.
  induction n as [|n IH]; intros Hn; simpl.
  - exists (String.length path). by rewrite slice_from_length.
  - destruct (String.get n path) as [c|].
    + destruct (IsPathSeparator c).
      * exists (String.length path). by rewrite slice_from_length.
      * case_bool_decide.
        -- exists n. split; [lia | done].
        -- apply IH. lia.
    + exists (String.length path). by rewrite slice_from_length.
Qed.

(** The extension is a suffix and the bare name is what precedes it. *)
Lemma bare_ext filename : getBareFilename filename +:+ Ext filename = filename.
Proof.
  unfold getBareFilename.
  destruct (Ext_from_slice filename (String.length filename)) as (i & Hi & HE);
    [done|].
  unfold Ext. rewrite HE, TrimSuffix_slice_from by done.
  apply slice_to_from.
Qed.

Lemma length_bare_ext filename :
  (String.length (getBareFilename filename) + String.length (Ext filename))%nat
  = String.length filename.
Proof. by rewrite <- length_app, bare_ext. Qed.

(** ** Go's [int] *)

Lemma int_wrap_range z : int_range (int_wrap z).
Proof.
  unfold int_range, int_wrap, min_int, max_int.
  pose proof (Z.mod_pos_bound (z + 2 ^ 63) (2 ^ 64) eq_refl). lia.
Qed.

Lemma int_wrap_id z : int_range z -> int_wrap z = z.
Proof.
  unfold int_range, int_wrap, min_int, max_int. intros H.
  rewrite Z.mod_small; lia.
Qed.

(** Below [max_int] the addition of one is exact. *)
Lemma int_add_1_exact k : min_int - 1 <= k < max_int -> int_add k 1 = k + 1.
Proof.
  intros H. unfold int_add. apply int_wrap_id.
  unfold int_range. lia.
Qed.

(** At [max_int] it wraps around to [min_int]. *)
Lemma int_add_1_wraps : int_add max_int 1 = min_int.
Proof. reflexivity. Qed.

(** Adding one always changes an [int]. *)
Lemma int_add_1_ne k : int_range k -> int_add k 1 <> k.
Proof.
  intros H. destruct (decide (k = max_int)) as [->|Hne].
  - rewrite int_add_1_wraps. done.
  - rewrite int_add_1_exact by (unfold int_range in H; lia). lia.
Qed.

(** ** One [Resolve] call *)

Section resolve.
Variable fi : FileIndex.
Variable filename : string.

Lemma copy_name_longer n :
  (String.length filename < String.length (copy_name filename n))%nat.
Proof.
  unfold copy_name, Sprintf_s_s_d_s. rewrite !length_app.
  pose proof (length_bare_ext filename). simpl. lia.
Qed.

Lemma copy_name_ne n : copy_name filename n <> filename.
Proof.
  intros H. pose proof (copy_name_longer n) as Hl. rewrite H in Hl. lia.
Qed.

Lemma copy_name_inj : Inj (=) (=) (copy_name filename).
Proof.
  intros n m H. unfold copy_name, Sprintf_s_s_d_s in H.
  apply (inj (String.app _)), (inj (String.app _)), app_cancel_r in H.
  by apply (inj pretty).
Qed.

Lemma Resolve_absent :
  index fi !! filename = None ->
  Resolve fi filename
  = (filename, mkFileIndex (<[filename := 0]> (index fi))).
Proof. intros H. unfold Resolve. by rewrite H. Qed.

Lemma Resolve_present copyNum :
  index fi !! filename = Some copyNum ->
  Resolve fi filename
  = (copy_name filename (int_add copyNum 1),
     mkFileIndex
       (<[copy_name filename (int_add copyNum 1) := 0]>
          (<[filename := int_add copyNum 1]> (index fi)))).
Proof. intros H. unfold Resolve. by rewrite H. Qed.

(** After any call the requested name is a key. *)
Lemma Resolve_records_request :
  is_Some (index (snd (Resolve fi filename)) !! filename).
Proof.
  destruct (index fi !! filename) as [k|] eqn:Hk.
  - rewrite (Resolve_present k Hk). simpl.
    rewrite lookup_insert_ne by apply copy_name_ne.
    rewrite lookup_insert_eq. by eexists.
  - rewrite (Resolve_absent Hk). simpl. rewrite lookup_insert_eq. by eexists.
Qed.

(** The returned name is recorded with counter 0. *)
Lemma Resolve_records_result :
  index (snd (Resolve fi filename)) !! fst (Resolve fi filename) = Some 0.
Proof.
  destruct (index fi !! filename) as [k|] eqn:Hk.
  - rewrite (Resolve_present k Hk). simpl. apply lookup_insert_eq.
  - rewrite (Resolve_absent Hk). simpl. apply lookup_insert_eq.
Qed.

(** No key is removed. *)
Lemma Resolve_keeps_keys key :
  is_Some (index fi !! key) ->
  is_Some (index (snd (Resolve fi filename)) !! key).
Proof.
  intros Hkey.
  destruct (index fi !! filename) as [k|] eqn:Hk.
  - rewrite (Resolve_present k Hk). simpl.
    rewrite !lookup_insert. repeat case_decide; eauto.
  - rewrite (Resolve_absent Hk). simpl.
    rewrite lookup_insert. case_decide; eauto.
Qed.

(** A key other than the request and the returned name keeps its
    counter. *)
Lemma Resolve_frame key :
  key <> filename -> key <> fst (Resolve fi filename) ->
  index (snd (Resolve fi filename)) !! key = index fi !! key.
Proof.
  destruct (index fi !! filename) as [k|] eqn:Hk.
  - rewrite (Resolve_present k Hk). simpl. intros H1 H2.
    by rewrite !lookup_insert_ne.
  - rewrite (Resolve_absent Hk). simpl. intros H1 _.
    by rewrite lookup_insert_ne.
Qed.
End resolve.

(** Keys survive any sequence of calls. *)
Lemma resolve_all_keeps_keys requests fi key :
  is_Some (index fi !! key) ->
  is_Some (index (snd (resolve_all fi requests)) !! key).
Proof.
  revert fi. induction requests as [|r rs IH]; intros fi Hkey; simpl; [done|].
  pose proof (Resolve_keeps_keys fi r key Hkey) as H1.
  destruct (Resolve fi r) as [name fi1]. simpl in H1.
  specialize (IH fi1 H1).
  destruct (resolve_all fi1 rs) as [names fi2]. done.
Qed.

(** C3: [Resolve(requested)] on a name that is not a key records it with
    counter 0 and returns it unchanged; on a key with counter [k] it
    returns [base + "_copy" + (k+1) + extension], stores [k+1] under the
    requested name and records the returned candidate with counter 0.
    Here [k+1] is the addition of Go's [int], and every other key keeps
    its counter. *)
Theorem Resolve_behaviour (fi : FileIndex) (requested : string) :
  match index fi !! requested with
  | None =>
      fst (Resolve fi requested) = requested
      /\ index (snd (Resolve fi requested)) !! requested = Some 0
      /\ (forall other, other <> requested ->
            index (snd (Resolve fi requested)) !! other = index fi !! other)
  | Some k =>
      fst (Resolve fi requested)
      = getBareFilename requested +:+ "_copy" +:+ pretty (int_add k 1)
          +:+ Ext requested
      /\ index (snd (Resolve fi requested)) !! requested = Some (int_add k 1)
      /\ index (snd (Resolve fi requested)) !! fst (Resolve fi requested)
         = Some 0
      /\ (forall other,
            other <> requested -> other <> fst (Resolve fi requested) ->
            index (snd (Resolve fi requested)) !! other = index fi !! other)
  end.
Proof.
  destruct (index fi !! requested) as [k|] eqn:Hk.
  - rewrite (Resolve_present _ _ k Hk). simpl.
    split; [done|]. split; [|split].
    + rewrite lookup_insert_ne by apply copy_name_ne.
      apply lookup_insert_eq.
    + apply lookup_insert_eq.
    + intros other H1 H2. by rewrite !lookup_insert_ne.
  - rewrite (Resolve_absent _ _ Hk). simpl.
    split; [done|]. split; [apply lookup_insert_eq|].
    intros other H1. by rewrite lookup_insert_ne.
Qed.

(** ** Repeated requests for one name *)

(** C6: from a resolver in which [F] has no entry, three successive
    [Resolve(F)] calls return [F] unchanged, then [B + "_copy1" + E], then
    [B + "_copy2" + E], where [B] is the base and [E] the extension of
    [F]. *)
Theorem Resolve_three_times (fi : FileIndex) (F : string) :
  index fi !! F = None ->
  fst (resolve_all fi [F; F; F])
  = [F;
     getBareFilename F +:+ "_copy1" +:+ Ext F;
     getBareFilename F +:+ "_copy2" +:+ Ext F].
Proof.
  intros Hnone. simpl.
  rewrite (Resolve_absent _ _ Hnone).
  set (fi1 := mkFileIndex (<[F := 0]> (index fi))).
  assert (H1 : index fi1 !! F = Some 0) by apply lookup_insert_eq.
  rewrite (Resolve_present _ _ 0 H1).
  set (fi2 := mkFileIndex _).
  assert (H2 : index fi2 !! F = Some 1).
  { subst fi2. simpl. rewrite lookup_insert_ne by apply copy_name_ne.
    apply lookup_insert_eq. }
  rewrite (Resolve_present _ _ 1 H2).
  reflexivity.
Qed.

Lemma Resolve_three_times_witness :
  index (mkFileIndex ∅) !! "notes.txt" = None
  /\ fst (resolve_all (mkFileIndex ∅) ["notes.txt"; "notes.txt"; "notes.txt"])
     = ["notes.txt"; "notes_copy1.txt"; "notes_copy2.txt"].
Proof.
  split; [reflexivity|].
  apply (Resolve_three_times (mkFileIndex ∅) "notes.txt"). reflexivity.
Defined.

(** C7: for every resolver state and every requested name [F], two
    successive [Resolve(F)] calls return two distinct names.  The calls
    are taken in the order in which they hold the resolver's lock. *)
Theorem Resolve_twice_distinct (fi : FileIndex) (F : string) :
  fst (Resolve fi F) <> fst (Resolve (snd (Resolve fi F)) F).
Proof.
  destruct (index fi !! F) as [k|] eqn:Hk.
  - rewrite (Resolve_present _ _ k Hk). simpl.
    set (fi1 := mkFileIndex _).
    assert (H1 : index fi1 !! F = Some (int_add k 1)).
    { subst fi1. simpl. rewrite lookup_insert_ne by apply copy_name_ne.
      apply lookup_insert_eq. }
    rewrite (Resolve_present _ _ _ H1). simpl.
    intros Heq. apply copy_name_inj in Heq.
    symmetry in Heq. revert Heq. apply int_add_1_ne, int_wrap_range.
  - rewrite (Resolve_absent _ _ Hk). simpl.
    set (fi1 := mkFileIndex _).
    assert (H1 : index fi1 !! F = Some 0) by apply lookup_insert_eq.
    rewrite (Resolve_present _ _ 0 H1). simpl.
    intros Heq. symmetry in Heq. by apply copy_name_ne in Heq.
Qed.

(** ** Dotfiles *)

Lemma get_plain_chars rest i :
  plain_chars rest = true -> (i < String.length rest)%nat ->
  exists c, String.get i rest = Some c
            /\ IsPathSeparator c = false /\ c <> "."%char.
Proof.
  revert i. induction rest as [|c rest IH]; intros i Hp Hi; simpl in *; [lia|].
  apply andb_prop in Hp as [Hc Hp]. apply andb_prop in Hc as [Hdot Hsep].
  destruct i as [|i].
  - exists c. split; [done|]. split.
    + by destruct (IsPathSeparator c).
    + apply negb_true_iff, bool_decide_eq_false in Hdot. done.
  - apply IH; [done | lia].
Qed.

Lemma Ext_from_plain c0 rest n :
  plain_chars rest = true -> (n <= String.length rest)%nat ->
  Ext_from (String c0 rest) (S n) = Ext_from (String c0 rest) 1.
Proof.
  intros Hp. induction n as [|n IH]; intros Hn; [done|].
  destruct (get_plain_chars rest n Hp) as (c & Hget & Hsep & Hdot); [lia|].
  change (Ext_from (String c0 rest) (S (S n))) with
    (match String.get n rest with
     | Some c =>
         if IsPathSeparator c then EmptyString
         else if bool_decide (c = "."%char)
              then slice_from (String c0 rest) (S n)
              else Ext_from (String c0 rest) (S n)
     | None => EmptyString
     end).
  rewrite Hget, Hsep, bool_decide_eq_false_2 by done.
  apply IH. lia.
Qed.

(** The whole name of a dotfile is its extension, and its base is empty. *)
Lemma Ext_dotfile name :
  dotfile name = true -> Ext name = name /\ getBareFilename name = EmptyString.
Proof.
  destruct name as [|c rest]; [done|]. simpl.
  intros H. apply andb_prop in H as [Hc Hp].
  apply bool_decide_eq_true in Hc as ->.
  assert (HE : Ext (String "." rest) = String "." rest).
  { unfold Ext. simpl String.length.
    rewrite Ext_from_plain by done. reflexivity. }
  split; [done|].
  unfold getBareFilename. rewrite HE.
  apply (TrimSuffix_slice_from (String "." rest) 0). lia.
Qed.

(** C10: for a dotfile name (its only dot is the leading character) the
    whole name is the extension and the base is empty, so on a collision
    [Resolve] returns the copy suffix and the number prepended to the
    whole name. *)
Theorem Resolve_dotfile (fi : FileIndex) (name : string) (k : Z) :
  dotfile name = true ->
  index fi !! name = Some k ->
  Ext name = name
  /\ getBareFilename name = EmptyString
  /\ fst (Resolve fi name) = "_copy" +:+ pretty (int_add k 1) +:+ name.
Proof.
  intros Hdot Hk. destruct (Ext_dotfile name Hdot) as [HE HB].
  split; [done|]. split; [done|].
  rewrite (Resolve_present _ _ k Hk). simpl.
  unfold copy_name, Sprintf_s_s_d_s. by rewrite HE, HB.
Qed.

Lemma Resolve_dotfile_witness :
  dotfile ".bashrc" = true
  /\ index (mkFileIndex {[ ".bashrc" := 0 ]}) !! ".bashrc" = Some 0
  /\ fst (Resolve (mkFileIndex {[ ".bashrc" := 0 ]}) ".bashrc")
     = "_copy1.bashrc".
Proof.
  split; [reflexivity|]. split; [reflexivity|].
  apply (Resolve_dotfile (mkFileIndex {[ ".bashrc" := 0 ]}) ".bashrc" 0);
    reflexivity.
Defined.

(** ** Names returned twice *)

(** C1: the names returned by a sequence of [Resolve] calls are not
    always pairwise distinct.  On a resolver seeded from an empty
    directory the requests ["a_copy1.txt"], ["a.txt"], ["a.txt"] return
    ["a_copy1.txt"] twice: the generated candidate is not looked up in the
    index before it is returned. *)
Theorem Resolve_returns_a_name_twice :
  fst (resolve_all (NewFileIndexFromSlice [])
         ["a_copy1.txt"; "a.txt"; "a.txt"])
  = ["a_copy1.txt"; "a.txt"; "a_copy1.txt"].
Proof. vm_compute. reflexivity. Qed.

(** C2: a stored counter can decrease.  After the requests
    ["a_copy1.txt"], ["a_copy1.txt"], ["a.txt"] the counter of
    ["a_copy1.txt"] is 1; the next [Resolve("a.txt")] generates
    ["a_copy1.txt"] and stores 0 under it. *)
Theorem Resolve_resets_a_counter :
  index (snd (resolve_all (NewFileIndexFromSlice [])
                ["a_copy1.txt"; "a_copy1.txt"; "a.txt"]))
    !! "a_copy1.txt" = Some 1
  /\ fst (Resolve
            (snd (resolve_all (NewFileIndexFromSlice [])
                    ["a_copy1.txt"; "a_copy1.txt"; "a.txt"]))
            "a.txt") = "a_copy1.txt"
  /\ index (snd (Resolve
                   (snd (resolve_all (NewFileIndexFromSlice [])
                           ["a_copy1.txt"; "a_copy1.txt"; "a.txt"]))
                   "a.txt"))
       !! "a_copy1.txt" = Some 0.
Proof. vm_compute. auto. Qed.

(** ** Seeding *)

(** The outer loop stores, under every input name, what the inner loop
    computed for it, and nothing else. *)
Lemma lookup_fold_insert (g : string -> Z) (l : list string)
    (m : gmap string Z) (F : string) :
  fold_left (fun idx f => <[f := g f]> idx) l m !! F
  = if bool_decide (F ∈ l) then Some (g F) else m !! F.
Proof.
  revert m. induction l as [|f l IH]; intros m; cbn [fold_left].
  - rewrite bool_decide_eq_false_2; [done | apply not_elem_of_nil].
  - rewrite IH. destruct (decide (F ∈ l)) as [Hin|Hnin].
    + rewrite !bool_decide_eq_true_2; [done | by right | done].
    + rewrite (bool_decide_eq_false_2 _ Hnin).
      destruct (decide (f = F)) as [->|Hne].
      * rewrite bool_decide_eq_true_2 by left. apply lookup_insert_eq.
      * rewrite bool_decide_eq_false_2.
        -- by apply lookup_insert_ne.
        -- intros [?|?]%elem_of_cons; congruence.
Qed.

Lemma NewFileIndexFromSlice_lookup filenames F :
  index (NewFileIndexFromSlice filenames) !! F
  = if bool_decide (F ∈ filenames) then Some (latestCopy_of filenames F)
    else None.
Proof.
  unfold NewFileIndexFromSlice. simpl.
  rewrite (lookup_fold_insert (latestCopy_of filenames)).
  by rewrite lookup_empty.
Qed.

(** The comparison of the inner loop keeps the larger number. *)
Lemma scan_step_max fileBare latestCopy copyName :
  scan_step fileBare latestCopy copyName
  = match copyNumber fileBare copyName with
    | Some copyNum => Z.max latestCopy copyNum
    | None => latestCopy
    end.
Proof.
  unfold scan_step. destruct (copyNumber fileBare copyName) as [n|]; [|done].
  destruct (Z.ltb_spec latestCopy n); lia.
Qed.

Lemma fold_right_max_start (a n : Z) (L : list Z) :
  fold_right Z.max (Z.max a n) L = Z.max n (fold_right Z.max a L).
Proof. induction L as [|x L IH]; simpl; [lia | rewrite IH; lia]. Qed.

Lemma scan_fold fileBare filenames latestCopy :
  fold_left (scan_step fileBare) filenames latestCopy
  = fold_right Z.max latestCopy (omap (copyNumber fileBare) filenames).
Proof.
  revert latestCopy.
  induction filenames as [|C l IH]; intros acc; simpl; [done|].
  rewrite IH, scan_step_max.
  destruct (copyNumber fileBare C) as [n|]; simpl; [|done].
  apply fold_right_max_start.
Qed.

Lemma LastIndex_from_ge s substr n : -1 <= LastIndex_from s substr n.
Proof. induction n as [|n IH]; simpl; [lia|]. case_bool_decide; lia. Qed.

Lemma LastIndex_ge s substr : -1 <= LastIndex s substr.
Proof.
  unfold LastIndex. destruct (_ <=? _)%nat; [apply LastIndex_from_ge | lia].
Qed.

(** The loop body reads the same number as the rule of the
    specification, on the names that have the prefix. *)
Lemma copyNumber_spec base C :
  copyNumber base C
  = if HasPrefix C base then spec_copy_number base C else None.
Proof.
  unfold copyNumber, spec_copy_number.
  destruct (HasPrefix C base); simpl; [|done].
  set (stem := getBareFilename _).
  pose proof (LastIndex_ge stem copySuffix) as Hge.
  destruct (Z.eqb_spec (LastIndex stem copySuffix) (-1)); [done|].
  do 2 f_equal. lia.
Qed.

Lemma omap_copyNumber base filenames :
  omap (copyNumber base) filenames
  = omap (spec_copy_number base)
      (List.filter (fun C => HasPrefix C base) filenames).
Proof.
  induction filenames as [|C l IH]; [done|].
  cbn [List.filter omap list_omap]. fold (omap (copyNumber base) l).
  rewrite copyNumber_spec, IH.
  destruct (HasPrefix C base); [|done].
  cbn [omap list_omap]. done.
Qed.

Lemma max_or_zero_nonneg (L : list Z) :
  Forall (fun n => 0 <= n) L -> max_or_zero L = fold_right Z.max 0 L.
Proof.
  destruct L as [|n L]; simpl; [done|].
  intros H. apply Forall_cons in H as [Hn HL]. revert HL.
  induction L as [|x L IH]; simpl; intros HL; [lia|].
  apply Forall_cons in HL as [Hx HL]. rewrite IH by done. lia.
Qed.

Lemma fold_right_max_filter (L : list Z) :
  fold_right Z.max 0 (List.filter (fun n => 0 <=? n) L)
  = fold_right Z.max 0 L.
Proof.
  induction L as [|n L IH]; simpl; [done|].
  assert (0 <= fold_right Z.max 0 L).
  { clear. induction L; simpl; lia. }
  destruct (Z.leb_spec 0 n); simpl; rewrite IH; lia.
Qed.

Lemma filter_nonneg_Forall (L : list Z) :
  Forall (fun n => 0 <= n) (List.filter (fun n => 0 <=? n) L).
Proof.
  induction L as [|n L IH]; simpl; [constructor|].
  destruct (Z.leb_spec 0 n); [by constructor | done].
Qed.

Lemma latestCopy_of_spec filenames F :
  latestCopy_of filenames F = spec_counter_nonneg filenames F.
Proof.
  unfold latestCopy_of, spec_counter_nonneg, spec_copy_numbers.
  rewrite scan_fold, omap_copyNumber.
  rewrite max_or_zero_nonneg by apply filter_nonneg_Forall.
  by rewrite fold_right_max_filter.
Qed.

(** Where every number found is non-negative the two rules agree. *)
Lemma spec_counter_nonneg_agree filenames F :
  Forall (fun n => 0 <= n) (spec_copy_numbers filenames F) ->
  spec_counter_nonneg filenames F = spec_counter filenames F.
Proof.
  intros H. unfold spec_counter_nonneg, spec_counter.
  rewrite !max_or_zero_nonneg; [|done|apply filter_nonneg_Forall].
  apply fold_right_max_filter.
Qed.

(** C4, as amended: for each input name [F], [NewFileIndexFromSlice]
    stores the maximum copy number found over the input names that start
    with [base(F)], where a name contributes nothing when the copy-suffix
    token is absent, when the tail does not parse, or when the number
    parsed is negative; the stored counter is 0 when no name
    contributes. *)
Theorem NewFileIndexFromSlice_counter (filenames : list string) (F : string) :
  F ∈ filenames ->
  index (NewFileIndexFromSlice filenames) !! F
  = Some (spec_counter_nonneg filenames F).
Proof.
  intros Hin. rewrite NewFileIndexFromSlice_lookup.
  rewrite bool_decide_eq_true_2 by done.
  by rewrite latestCopy_of_spec.
Qed.

Lemma NewFileIndexFromSlice_counter_witness :
  "report.txt" ∈ ["report.txt"; "report_copy2.txt"; "report_copyX.txt"]
  /\ index (NewFileIndexFromSlice
              ["report.txt"; "report_copy2.txt"; "report_copyX.txt"])
       !! "report.txt"
     = Some 2.
Proof.
  split; [by left|].
  apply (NewFileIndexFromSlice_counter
           ["report.txt"; "report_copy2.txt"; "report_copyX.txt"]
           "report.txt").
  by left.
Defined.

(** C4, as stated, fails: with the input names ["a.txt"] and
    ["a_copy-5.txt"] the only number found for ["a.txt"] is -5, which is
    then the maximum found, while the counter stored is 0. *)
Lemma NewFileIndexFromSlice_negative_number :
  spec_copy_numbers ["a.txt"; "a_copy-5.txt"] "a.txt" = [-5]
  /\ spec_counter ["a.txt"; "a_copy-5.txt"] "a.txt" = -5
  /\ index (NewFileIndexFromSlice ["a.txt"; "a_copy-5.txt"]) !! "a.txt"
     = Some 0
  /\ index (NewFileIndexFromSlice ["a.txt"; "a_copy-5.txt"]) !! "a.txt"
     <> Some (spec_counter ["a.txt"; "a_copy-5.txt"] "a.txt").
Proof. vm_compute. repeat split; discriminate. Qed.

(** C5: seeding from the name set [{"a.txt", "a_copy3.txt", "b.txt"}], in
    whatever order the directory lists it, records counter 3 for
    ["a.txt"] and counter 0 for ["b.txt"] and for ["a_copy3.txt"]. *)
Theorem NewFileIndexFromSlice_example (filenames : list string) :
  filenames ≡ₚ ["a.txt"; "a_copy3.txt"; "b.txt"] ->
  index (NewFileIndexFromSlice filenames) !! "a.txt" = Some 3
  /\ index (NewFileIndexFromSlice filenames) !! "b.txt" = Some 0
  /\ index (NewFileIndexFromSlice filenames) !! "a_copy3.txt" = Some 0.
Proof.
  intros Hperm. symmetry in Hperm.
  apply permutations_Permutation in Hperm.
  vm_compute in Hperm.
  repeat (apply elem_of_cons in Hperm as [->|Hperm];
          [vm_compute; auto|]).
  by apply elem_of_nil in Hperm.
Qed.

Lemma NewFileIndexFromSlice_example_witness :
  ["b.txt"; "a_copy3.txt"; "a.txt"] ≡ₚ ["a.txt"; "a_copy3.txt"; "b.txt"]
  /\ index (NewFileIndexFromSlice ["b.txt"; "a_copy3.txt"; "a.txt"])
       !! "a.txt" = Some 3
  /\ index (NewFileIndexFromSlice ["b.txt"; "a_copy3.txt"; "a.txt"])
       !! "b.txt" = Some 0
  /\ index (NewFileIndexFromSlice ["b.txt"; "a_copy3.txt"; "a.txt"])
       !! "a_copy3.txt" = Some 0.
Proof.
  assert (H : ["b.txt"; "a_copy3.txt"; "a.txt"]
              ≡ₚ ["a.txt"; "a_copy3.txt"; "b.txt"]).
  { apply permutations_Permutation. vm_compute.
    do 5 right. left. }
  split; [exact H|].
  exact (NewFileIndexFromSlice_example ["b.txt"; "a_copy3.txt"; "a.txt"] H).
Defined.

(** ** The connection handler *)

(** C8: when reading the filename token fails, [receiveFile] only logs and
    closes the connection: no file is created, nothing is sent back and
    [Resolve] is not called, so the index is as it was. *)
Theorem receiveFile_no_name (env : Env) (w : World) :
  env_scan env = None ->
  receiveFile env w = close_con (log LogNoName w)
  /\ w_index (receiveFile env w) = w_index w
  /\ w_files (receiveFile env w) = w_files w
  /\ w_sent (receiveFile env w) = w_sent w
  /\ w_log (receiveFile env w) = (w_log w ++ [LogNoName])%list
  /\ w_closed (receiveFile env w) = true.
Proof. intros Hscan. unfold receiveFile. rewrite Hscan. done. Qed.

Lemma receiveFile_no_name_witness :
  env_scan example_env_no_name = None
  /\ w_index (receiveFile example_env_no_name example_world)
     = NewFileIndexFromSlice ["notes.txt"]
  /\ w_files (receiveFile example_env_no_name example_world) = ∅
  /\ w_sent (receiveFile example_env_no_name example_world) = [].
Proof.
  split; [reflexivity|].
  destruct (receiveFile_no_name example_env_no_name example_world eq_refl)
    as (_ & Hi & Hf & Hs & _).
  rewrite Hi, Hf, Hs. done.
Defined.

Lemma store_stream_index env name w :
  w_index (store_stream env name w) = w_index w.
Proof.
  unfold store_stream. destruct (env_create_ok env); simpl; [|done].
  destruct (receive_loop _ _ _ _ _ _) as [content [fileSize|]]; simpl;
    [|done].
  by destruct (env_zclose_ok env).
Qed.

Lemma store_stream_sent env name w :
  w_sent (store_stream env name w) = w_sent w.
Proof.
  unfold store_stream. destruct (env_create_ok env); simpl; [|done].
  destruct (receive_loop _ _ _ _ _ _) as [content [fileSize|]]; simpl;
    [|done].
  by destruct (env_zclose_ok env).
Qed.

Lemma store_stream_log_prefix env name w :
  w_log w `prefix_of` w_log (store_stream env name w).
Proof.
  unfold store_stream. destruct (env_create_ok env); simpl.
  - destruct (receive_loop _ _ _ _ _ _) as [content [fileSize|]]; simpl.
    + destruct (env_zclose_ok env); simpl; rewrite <- ?app_assoc;
        by apply prefix_app_r.
    + rewrite <- app_assoc. by apply prefix_app_r.
  - by apply prefix_app_r.
Qed.

(** What [os.Create] and the receive loop leave on disk. *)
Lemma store_stream_files env name w :
  w_files (store_stream env name w)
  = if env_create_ok env
    then <[name := fst (receive_loop (env_reads env) (env_read_last env)
                          (env_write_ok env) 0 [] 0)]> (w_files w)
    else w_files w.
Proof.
  unfold store_stream. destruct (env_create_ok env); simpl; [|done].
  destruct (receive_loop _ _ _ _ _ _) as [content [fileSize|]]; simpl.
  - destruct (env_zclose_ok env); simpl; apply insert_insert_eq.
  - apply insert_insert_eq.
Qed.

Lemma store_stream_attempt env name w :
  if env_create_ok env
  then LogReceiving name ∈ w_log (store_stream env name w)
  else LogNotCreated name ∈ w_log (store_stream env name w).
Proof.
  unfold store_stream. destruct (env_create_ok env); simpl.
  - destruct (receive_loop _ _ _ _ _ _) as [content [fileSize|]]; simpl.
    + destruct (env_zclose_ok env); simpl; set_solver.
    + set_solver.
  - set_solver.
Qed.

(** C9: when writing the resolved name back fails, [receiveFile] logs
    the failure and goes on: nothing is sent, the index is the one
    [Resolve] left, and the handler runs [os.Create] under the resolved
    name and the receive loop exactly as after a successful write; when
    the file is created, it holds what the loop received. *)
Theorem receiveFile_send_failure (env : Env) (w : World) (filename : string) :
  env_scan env = Some filename ->
  env_send_ok env = false ->
  receiveFile env w
  = close_con
      (store_stream env (fst (Resolve (w_index w) filename))
         (log LogNotSent (set_index (snd (Resolve (w_index w) filename)) w)))
  /\ LogNotSent ∈ w_log (receiveFile env w)
  /\ w_sent (receiveFile env w) = w_sent w
  /\ w_index (receiveFile env w) = snd (Resolve (w_index w) filename)
  /\ (if env_create_ok env
      then LogReceiving (fst (Resolve (w_index w) filename))
             ∈ w_log (receiveFile env w)
           /\ w_files (receiveFile env w)
              = <[fst (Resolve (w_index w) filename) :=
                    fst (receive_loop (env_reads env) (env_read_last env)
                           (env_write_ok env) 0 [] 0)]> (w_files w)
      else LogNotCreated (fst (Resolve (w_index w) filename))
             ∈ w_log (receiveFile env w)
           /\ w_files (receiveFile env w) = w_files w).
Proof.
  intros Hscan Hsend.
  set (serverFilename := fst (Resolve (w_index w) filename)).
  set (fi := snd (Resolve (w_index w) filename)).
  assert (Hrun : receiveFile env w
                 = close_con (store_stream env serverFilename
                                (log LogNotSent (set_index fi w)))).
  { unfold receiveFile. rewrite Hscan, Hsend. subst serverFilename fi.
    by destruct (Resolve (w_index w) filename). }
  split; [done|]. rewrite Hrun. simpl.
  split; [|split; [|split]].
  - eapply elem_of_prefix; [|apply store_stream_log_prefix]. simpl. set_solver.
  - by rewrite store_stream_sent.
  - by rewrite store_stream_index.
  - pose proof (store_stream_attempt env serverFilename
                  (log LogNotSent (set_index fi w))) as Hat.
    rewrite store_stream_files.
    destruct (env_create_ok env); done.
Qed.

Lemma receiveFile_send_failure_witness :
  env_scan example_env_no_reply = Some "notes.txt"
  /\ env_send_ok example_env_no_reply = false
  /\ w_files (receiveFile example_env_no_reply example_world)
       !! "notes_copy1.txt"
     = Some ["h"%byte; "i"%byte]
  /\ w_sent (receiveFile example_env_no_reply example_world) = [].
Proof.
  split; [reflexivity|]. split; [reflexivity|].
  destruct (receiveFile_send_failure example_env_no_reply example_world
              "notes.txt" eq_refl eq_refl)
    as (_ & _ & Hs & _ & _ & Hf).
  rewrite Hs, Hf. split; reflexivity.
Defined.

(** ** What does hold of the counters *)

(** A call never lowers the counter of a key other than the name it
    returns, as long as that counter is below [max_int]. *)
Lemma Resolve_counter_elsewhere (fi : FileIndex) (filename key : string) (v : Z) :
  index fi !! key = Some v ->
  key <> fst (Resolve fi filename) ->
  min_int <= v < max_int ->
  exists v', index (snd (Resolve fi filename)) !! key = Some v' /\ v <= v'.
Proof.
  intros Hkey Hne Hv. destruct (decide (key = filename)) as [->|Hother].
  - revert Hne. rewrite (Resolve_present _ _ v Hkey). simpl. intros Hne.
    exists (int_add v 1). rewrite lookup_insert_ne by done.
    rewrite lookup_insert_eq. split; [done|].
    rewrite int_add_1_exact; lia.
  - exists v. rewrite Resolve_frame by done. split; [done | lia].
Qed.

(** At [max_int] the counter wraps around. *)
Example Resolve_counter_overflow :
  index (NewFileIndexFromSlice ["x"; "x_copy9223372036854775807"]) !! "x"
  = Some max_int
  /\ fst (Resolve
            (NewFileIndexFromSlice ["x"; "x_copy9223372036854775807"]) "x")
     = "x_copy-9223372036854775808"
  /\ index (snd (Resolve
                   (NewFileIndexFromSlice ["x"; "x_copy9223372036854775807"])
                   "x")) !! "x"
     = Some min_int.
Proof. vm_compute. auto. Qed.


(** * Further properties *)

(** ** More on strings *)

Section more_strings.
Implicit Types s t : string.

Lemma app_empty_r s : s +:+ EmptyString = s.
Proof. induction s as [|c s IH]; [done|]. by rewrite app_cons, IH. Qed.

Lemma app_assoc_str s t u : (s +:+ t) +:+ u = s +:+ (t +:+ u).
Proof. induction s as [|c s IH]; [done|]. by rewrite !app_cons, IH. Qed.

Lemma get_app_r s t k : String.get (String.length s + k) (s +:+ t) = String.get k t.
Proof. induction s as [|c s IH]; [done|]. by rewrite app_cons. Qed.

Lemma get_app_l s t i :
  (i < String.length s)%nat -> String.get i (s +:+ t) = String.get i s.
Proof.
  revert i. induction s as [|c s IH]; intros i Hi; simpl in Hi; [lia|].
  rewrite app_cons. destruct i as [|i]; [done|]. simpl. apply IH. lia.
Qed.

Lemma get_lt s i : (i < String.length s)%nat -> is_Some (String.get i s).
Proof.
  revert i. induction s as [|c s IH]; intros i Hi; simpl in Hi; [lia|].
  destruct i as [|i]; simpl; [by eexists | apply IH; lia].
Qed.

Lemma slice_from_app s t : slice_from (s +:+ t) (String.length s) = t.
Proof. induction s as [|c s IH]; [by destruct t|]. by rewrite app_cons. Qed.

Lemma slice_to_app s t : slice_to (s +:+ t) (String.length s) = s.
Proof.
  induction s as [|c s IH]; [by destruct t|].
  rewrite app_cons. simpl. by rewrite IH.
Qed.

Lemma slice_from_get s i c :
  String.get i s = Some c -> slice_from s i = String c (slice_from s (S i)).
Proof.
  revert i. induction s as [|d s IH]; intros i H; [by destruct i|].
  destruct i as [|i]; simpl in *.
  - injection H as ->. by destruct s.
  - by apply IH.
Qed.

Lemma HasPrefix_app s t : HasPrefix (s +:+ t) s = true.
Proof.
  unfold HasPrefix. rewrite slice_to_app, bool_decide_eq_true_2 by done.
  rewrite andb_true_r. apply Nat.leb_le. rewrite length_app. lia.
Qed.

Lemma all_chars_app p s t :
  all_chars p (s +:+ t) = all_chars p s && all_chars p t.
Proof.
  induction s as [|c s IH]; [done|].
  rewrite app_cons. simpl. rewrite IH. apply andb_assoc.
Qed.

Lemma all_chars_impl (p q : ascii -> bool) s :
  (forall c, p c = true -> q c = true) ->
  all_chars p s = true -> all_chars q s = true.
Proof.
  intros Hpq. induction s as [|c s IH]; [done|]. simpl.
  intros [Hc Hs]%andb_prop. rewrite (Hpq c Hc). by apply IH.
Qed.

Lemma all_chars_slice_from p s i :
  all_chars p s = true -> all_chars p (slice_from s i) = true.
Proof.
  revert s. induction i as [|i IH]; intros [|c s]; simpl; try done.
  intros [_ Hs]%andb_prop. by apply IH.
Qed.
End more_strings.

(** ** Decimal numbers: what [%d] prints, [strconv.Atoi] reads back *)

Lemma pretty_N_char_digit (d : N) :
  (d < 10)%N ->
  is_digit (pretty_N_char d) = true
  /\ Z.of_nat (nat_of_ascii (pretty_N_char d) - 48) = Z.of_N d.
Proof.
  intros Hd. destruct d as [|p]; [by vm_compute|].
  repeat (destruct p as [p|p|]; try (exfalso; lia)); by vm_compute.
Qed.

(** Reading the digits printed for [x] in front of [s] leaves [x] as the
    number read so far. *)
Lemma parse_pretty_N_go (x : N) (s : string) :
  parse_digits (pretty_N_go x s) 0 = parse_digits s (Z.of_N x).
Proof.
  revert s. induction x as [x IH] using (well_founded_ind N.lt_wf_0).
  intros s. destruct (decide (0 < x)%N) as [Hpos|Hzero].
  - rewrite pretty_N_go_step by done.
    rewrite IH by (apply N.div_lt; lia).
    destruct (pretty_N_char_digit (x `mod` 10)%N) as [Hdig Hval].
    { apply N.mod_lt. lia. }
    cbn [parse_digits]. rewrite Hdig, Hval. f_equal.
    rewrite (N.div_mod x 10) at 3 by lia. lia.
  - assert (x = 0%N) as -> by lia. by rewrite pretty_N_go_0.
Qed.

Lemma parse_digits_all_chars s n m :
  parse_digits s n = Some m -> all_chars is_digit s = true.
Proof.
  revert n. induction s as [|c s IH]; intros n; [done|]. simpl.
  destruct (is_digit c); [apply IH | done].
Qed.

(** The digits of a positive number: not empty, all digits, and read back
    as the number. *)
Lemma pretty_pos_digits (p : positive) :
  exists c s, pretty (N.pos p) = String c s
              /\ is_digit c = true
              /\ all_chars is_digit s = true
              /\ parse_digits (String c s) 0 = Some (Z.pos p).
Proof.
  pose proof (parse_pretty_N_go (N.pos p) EmptyString) as Hparse.
  unfold pretty, pretty_N. rewrite decide_False by done.
  destruct (pretty_N_go (N.pos p) EmptyString) as [|c s] eqn:Hs; [done|].
  exists c, s. simpl in Hparse.
  pose proof (parse_digits_all_chars (String c s) 0 (Z.pos p) Hparse) as Hall.
  simpl in Hall. apply andb_prop in Hall as [Hc Hall]. done.
Qed.

(** [Atoi] reads back every [int] that [%d] printed. *)
Lemma Atoi_pretty (n : Z) : int_range n -> Atoi (pretty n) = Some n.
Proof.
  intros [Hlo Hhi]. destruct n as [|p|p].
  - reflexivity.
  - destruct (pretty_pos_digits p) as (c & s & Hs & Hc & _ & Hparse).
    change (pretty (Z.pos p)) with (pretty (N.pos p)). rewrite Hs.
    unfold Atoi.
    rewrite (bool_decide_eq_false_2 (c = "-"%char)) by (by intros ->).
    rewrite (bool_decide_eq_false_2 (c = "+"%char)) by (by intros ->).
    cbn [orb]. rewrite Hparse.
    destruct (Z.leb_spec min_int (Z.pos p)); [|lia].
    destruct (Z.leb_spec (Z.pos p) max_int); [done | lia].
  - destruct (pretty_pos_digits p) as (c & s & Hs & Hc & _ & Hparse).
    change (pretty (Z.neg p)) with ("-" +:+ pretty (N.pos p)). rewrite Hs.
    unfold Atoi. rewrite app_cons.
    rewrite (bool_decide_eq_true_2 ("-"%char = "-"%char)) by done.
    cbn [orb]. change (EmptyString +:+ String c s) with (String c s).
    rewrite Hparse. change (- Z.pos p) with (Z.neg p).
    destruct (Z.leb_spec min_int (Z.neg p)); [|lia].
    destruct (Z.leb_spec (Z.neg p) max_int); [done | lia].
Qed.

(** [%d] prints digits and at most a minus sign. *)
Lemma pretty_chars (n : Z) : all_chars digit_or_minus (pretty n) = true.
Proof.
  assert (Hweak : forall s, all_chars is_digit s = true ->
                            all_chars digit_or_minus s = true).
  { intros s. apply all_chars_impl. intros c Hc.
    unfold digit_or_minus. by rewrite Hc. }
  destruct n as [|p|p].
  - reflexivity.
  - destruct (pretty_pos_digits p) as (c & s & Hs & Hc & Hall & _).
    change (pretty (Z.pos p)) with (pretty (N.pos p)). rewrite Hs.
    apply (Hweak (String c s)). simpl. by rewrite Hc, Hall.
  - destruct (pretty_pos_digits p) as (c & s & Hs & Hc & Hall & _).
    change (pretty (Z.neg p)) with ("-" +:+ pretty (N.pos p)). rewrite Hs.
    change ("-" +:+ String c s) with (String "-" (String c s)).
    change (all_chars digit_or_minus (String c s) = true).
    apply (Hweak (String c s)). simpl. by rewrite Hc, Hall.
Qed.

Lemma digit_or_minus_chars (c : ascii) :
  digit_or_minus c = true ->
  c <> "."%char /\ IsPathSeparator c = false /\ c <> "_"%char.
Proof.
  destruct c as [b0 b1 b2 b3 b4 b5 b6 b7].
  destruct b0, b1, b2, b3, b4, b5, b6, b7; vm_compute; intros H;
    try discriminate H; repeat split; discriminate.
Qed.

(** ** More on extensions *)

Lemma plain_chars_all_chars s :
  plain_chars s
  = all_chars
      (fun c => negb (bool_decide (c = "."%char)) && negb (IsPathSeparator c)) s.
Proof. induction s as [|c s IH]; [done|]. simpl. by rewrite IH. Qed.

Lemma plain_chars_app s t :
  plain_chars (s +:+ t) = plain_chars s && plain_chars t.
Proof. rewrite !plain_chars_all_chars. apply all_chars_app. Qed.

Lemma digit_or_minus_plain s :
  all_chars digit_or_minus s = true -> plain_chars s = true.
Proof.
  rewrite plain_chars_all_chars. apply all_chars_impl. intros c Hc.
  destruct (digit_or_minus_chars c Hc) as (Hdot & Hsep & _).
  by rewrite Hsep, bool_decide_eq_false_2.
Qed.

(** The text [Resolve] puts between base and extension has neither a dot
    nor a separator. *)
Lemma copy_infix_plain (n : Z) : plain_chars (copySuffix +:+ pretty n) = true.
Proof.
  rewrite plain_chars_app, (digit_or_minus_plain (pretty n)); [done|].
  apply pretty_chars.
Qed.

(** A name without dot and separator has no extension. *)
Lemma Ext_from_plain_all s n :
  plain_chars s = true -> (n <= String.length s)%nat ->
  Ext_from s n = EmptyString.
Proof.
  intros Hp. induction n as [|n IH]; intros Hn; [done|]. simpl.
  destruct (get_plain_chars s n Hp) as (c & Hget & Hsep & Hdot); [lia|].
  rewrite Hget, Hsep, bool_decide_eq_false_2 by done. apply IH. lia.
Qed.

Lemma Ext_plain s : plain_chars s = true -> Ext s = EmptyString.
Proof. intros Hp. by apply Ext_from_plain_all. Qed.

(** The scan for the extension skips a tail without dot and separator. *)
Lemma Ext_from_skip s t n :
  plain_chars t = true -> (n <= String.length t)%nat ->
  Ext_from (s +:+ t) (String.length s + n)
  = Ext_from (s +:+ t) (String.length s).
Proof.
  intros Hp. induction n as [|n IH]; intros Hn.
  - by rewrite Nat.add_0_r.
  - replace (String.length s + S n)%nat with (S (String.length s + n)) by lia.
    cbn [Ext_from]. rewrite get_app_r.
    destruct (get_plain_chars t n Hp) as (c & Hget & Hsep & Hdot); [lia|].
    rewrite Hget, Hsep, bool_decide_eq_false_2 by done. apply IH. lia.
Qed.

(** Whatever precedes it, a dot followed by bytes other than dot and
    separator is the extension. *)
Lemma Ext_app_dotfile s e : dotfile e = true -> Ext (s +:+ e) = e.
Proof.
  destruct e as [|c rest]; [done|]. simpl.
  intros [Hc Hp]%andb_prop. apply bool_decide_eq_true in Hc as ->.
  unfold Ext. rewrite length_app. simpl String.length.
  change (s +:+ String "." rest) with (s +:+ ("." +:+ rest)).
  rewrite <- app_assoc_str.
  replace (String.length s + S (String.length rest))%nat
    with (String.length (s +:+ ".") + String.length rest)%nat
    by (rewrite length_app; simpl; lia).
  rewrite Ext_from_skip by done.
  rewrite length_app. simpl String.length.
  replace (String.length s + 1)%nat with (S (String.length s)) by lia.
  rewrite app_assoc_str. cbn [Ext_from].
  pose proof (get_app_r s ("." +:+ rest) 0) as Hget.
  rewrite Nat.add_0_r in Hget. rewrite Hget. simpl.
  apply slice_from_app.
Qed.

(** A name without extension still has none after a tail without dot
    and separator is appended. *)
Lemma Ext_from_app_nil s t n :
  (n <= String.length s)%nat ->
  Ext_from s n = EmptyString -> Ext_from (s +:+ t) n = EmptyString.
Proof.
  induction n as [|n IH]; intros Hn; [done|]. simpl.
  rewrite get_app_l by lia.
  destruct (get_lt s n) as [c Hget]; [lia|]. rewrite Hget.
  destruct (IsPathSeparator c); [done|].
  case_bool_decide as Hdot.
  - intros HE. apply (f_equal String.length) in HE.
    rewrite length_slice_from in HE. simpl in HE. lia.
  - intros HE. apply IH; [lia | done].
Qed.

Lemma Ext_app_plain s t :
  plain_chars t = true -> Ext s = EmptyString -> Ext (s +:+ t) = EmptyString.
Proof.
  intros Hp Hs. unfold Ext. rewrite length_app, Ext_from_skip by done.
  by apply Ext_from_app_nil.
Qed.

(** What [filepath.Ext] returns is empty, or a dot followed by bytes
    other than dot and separator. *)
Lemma Ext_from_shape path n :
  (n <= String.length path)%nat ->
  plain_chars (slice_from path n) = true ->
  Ext_from path n = EmptyString \/ dotfile (Ext_from path n) = true.
Proof.
  induction n as [|n IH]; intros Hn Hp; [by left|]. simpl.
  destruct (get_lt path n) as [c Hget]; [lia|]. rewrite Hget.
  destruct (IsPathSeparator c) eqn:Hsep; [by left|].
  case_bool_decide as Hdot.
  - right. rewrite (slice_from_get _ _ _ Hget). simpl.
    by rewrite Hp, bool_decide_eq_true_2.
  - apply IH; [lia|]. rewrite (slice_from_get _ _ _ Hget). simpl.
    by rewrite Hp, Hsep, bool_decide_eq_false_2.
Qed.

Lemma Ext_shape path : Ext path = EmptyString \/ dotfile (Ext path) = true.
Proof.
  apply Ext_from_shape; [done|]. by rewrite slice_from_length.
Qed.

(** ** The last copy suffix *)

Lemma slice_no_head (c0 : ascii) (t sub : string) (i m : nat) :
  all_chars (fun c => negb (bool_decide (c = c0))) t = true ->
  slice_to (slice_from t i) (S m) <> String c0 sub.
Proof.
  intros Hall. apply (all_chars_slice_from _ _ i) in Hall.
  destruct (slice_from t i) as [|c r]; simpl in *; [done|].
  apply andb_prop in Hall as [Hc _].
  apply negb_true_iff, bool_decide_eq_false in Hc. congruence.
Qed.

Lemma LastIndex_from_head (c0 : ascii) (t sub : string) (n : nat) :
  all_chars (fun c => negb (bool_decide (c = c0))) t = true ->
  slice_to (String c0 t) (S (String.length sub)) = String c0 sub ->
  LastIndex_from (String c0 t) (String c0 sub) (S n) = 0.
Proof.
  intros Hall Hhead. induction n as [|n IH].
  - simpl LastIndex_from. simpl in Hhead.
    by rewrite bool_decide_eq_true_2.
  - change (LastIndex_from (String c0 t) (String c0 sub) (S (S n)))
      with (if bool_decide
                 (slice_to (slice_from t n) (S (String.length sub))
                  = String c0 sub)
            then Z.of_nat (S n)
            else LastIndex_from (String c0 t) (String c0 sub) (S n)).
    rewrite bool_decide_eq_false_2 by by apply slice_no_head.
    apply IH.
Qed.

(** In the copy suffix followed by a printed number the suffix occurs at
    index 0 only. *)
Lemma LastIndex_copySuffix (n : Z) :
  LastIndex (copySuffix +:+ pretty n) copySuffix = 0.
Proof.
  unfold LastIndex.
  replace (String.length copySuffix <=? String.length (copySuffix +:+ pretty n))%nat
    with true by (symmetry; apply Nat.leb_le; rewrite length_app; lia).
  apply (LastIndex_from_head "_" ("copy" +:+ pretty n) "copy");
    [|by destruct (pretty n)].
  rewrite all_chars_app. apply andb_true_intro. split; [done|].
  eapply all_chars_impl; [|apply pretty_chars].
  intros c Hc. destruct (digit_or_minus_chars c Hc) as (_ & _ & Hu).
  by rewrite bool_decide_eq_false_2.
Qed.

(** ** Base and extension of a name *)

(** A name is its base followed by its extension, and the extension is
    empty or a dot followed by bytes that are neither a dot nor a
    separator. *)
Theorem getBareFilename_Ext_split (filename : string) :
  getBareFilename filename +:+ Ext filename = filename
  /\ (Ext filename = EmptyString \/ dotfile (Ext filename) = true).
Proof. split; [apply bare_ext | apply Ext_shape]. Qed.

Lemma getBareFilename_Ext filename :
  getBareFilename (Ext filename) = EmptyString.
Proof.
  destruct (Ext_shape filename) as [->|Hdot]; [done|].
  by apply Ext_dotfile.
Qed.

(** Base and extension of a generated name. *)
Lemma Ext_copy_name filename n : Ext (copy_name filename n) = Ext filename.
Proof.
  unfold copy_name, Sprintf_s_s_d_s.
  destruct (Ext_shape filename) as [Hnil|Hdot].
  - pose proof (bare_ext filename) as Hsplit.
    rewrite Hnil, app_empty_r in Hsplit. rewrite Hnil, app_empty_r, Hsplit.
    apply Ext_app_plain; [apply copy_infix_plain | done].
  - rewrite <- !app_assoc_str. by apply Ext_app_dotfile.
Qed.

Lemma getBareFilename_copy_name filename n :
  getBareFilename (copy_name filename n)
  = getBareFilename filename +:+ copySuffix +:+ pretty n.
Proof.
  apply (app_cancel_r _ _ (Ext filename)).
  rewrite <- (Ext_copy_name filename n) at 1. rewrite bare_ext.
  unfold copy_name, Sprintf_s_s_d_s. by rewrite !app_assoc_str.
Qed.

(** ** Generated names and the seeding scan *)

Lemma Atoi_range s n : Atoi s = Some n -> int_range n.
Proof.
  unfold Atoi. destruct s as [|c0 rest]; [done|].
  destruct (if _ : bool then rest else String c0 rest); [done|].
  destruct (parse_digits _ 0) as [un|]; [|done].
  destruct (Z.leb_spec min_int (if bool_decide (c0 = "-"%char) then - un else un));
    [|done].
  destruct (Z.leb_spec (if bool_decide (c0 = "-"%char) then - un else un) max_int);
    [|done].
  intros [= <-]. done.
Qed.

Lemma copyNumber_range fileBare copyName n :
  copyNumber fileBare copyName = Some n -> int_range n.
Proof.
  unfold copyNumber. destruct (negb _); [done|].
  destruct (_ =? -1); [done|]. apply Atoi_range.
Qed.

(** The scan reads copy number [n] of [filename] from the name generated
    for [n]. *)
Lemma copyNumber_copy_name filename n :
  int_range n ->
  copyNumber (getBareFilename filename) (copy_name filename n) = Some n.
Proof.
  intros Hn.
  assert (Hbare : getBareFilename (copySuffix +:+ pretty n +:+ Ext filename)
                  = copySuffix +:+ pretty n).
  { pose proof (getBareFilename_copy_name EmptyString n) as H0.
    pose proof (getBareFilename_copy_name filename n) as H1.
    pose proof (bare_ext (copySuffix +:+ pretty n +:+ Ext filename)) as Hs.
    assert (HE : Ext (copySuffix +:+ pretty n +:+ Ext filename) = Ext filename).
    { destruct (Ext_shape filename) as [Hnil|Hdot].
      - rewrite Hnil, app_empty_r. apply Ext_plain, copy_infix_plain.
      - rewrite <- app_assoc_str. by apply Ext_app_dotfile. }
    rewrite HE, <- app_assoc_str in Hs. by apply app_cancel_r in Hs. }
  unfold copyNumber. cbv zeta.
  change (copy_name filename n)
    with (getBareFilename filename
          +:+ (copySuffix +:+ pretty n +:+ Ext filename)).
  rewrite HasPrefix_app, slice_from_app, Hbare, LastIndex_copySuffix.
  change (Z.to_nat (0 + Z.of_nat (String.length copySuffix)))
    with (String.length copySuffix).
  rewrite slice_from_app. by apply Atoi_pretty.
Qed.

Lemma copyNumber_self (filename : string) :
  copyNumber (getBareFilename filename) filename = None.
Proof.
  pose proof (bare_ext filename) as Hsplit.
  pose proof (getBareFilename_Ext filename) as Hext.
  unfold copyNumber. cbv zeta.
  remember (getBareFilename filename) as base eqn:Hb.
  remember (Ext filename) as ext eqn:He.
  rewrite <- Hsplit, HasPrefix_app, slice_from_app, Hext. done.
Qed.

(** A name is not read as a copy of itself: whatever the name, even one
    that ends in a copy suffix and a number, a directory that holds this
    one file seeds its counter with 0. *)
Theorem copyNumber_own_name (filename : string) :
  copyNumber (getBareFilename filename) filename = None
  /\ index (NewFileIndexFromSlice [filename]) !! filename = Some 0.
Proof.
  pose proof (copyNumber_self filename) as Hown.
  split; [done|]. simpl. rewrite lookup_insert_eq.
  unfold latestCopy_of. simpl. by rewrite scan_step_max, Hown.
Qed.

(** The name [Resolve] generates on a collision is read by the seeding
    scan as the copy number stored by the same call. *)
Theorem Resolve_name_read_back (fi : FileIndex) (filename : string) (k : Z) :
  index fi !! filename = Some k ->
  copyNumber (getBareFilename filename) (fst (Resolve fi filename))
  = index (snd (Resolve fi filename)) !! filename.
Proof.
  intros Hk. rewrite (Resolve_present _ _ k Hk). simpl.
  rewrite lookup_insert_ne by apply copy_name_ne.
  rewrite lookup_insert_eq.
  apply copyNumber_copy_name, int_wrap_range.
Qed.

Lemma Resolve_name_read_back_witness :
  index (NewFileIndexFromSlice ["a.txt"; "a_copy3.txt"]) !! "a.txt" = Some 3
  /\ copyNumber "a" "a_copy4.txt" = Some 4.
Proof.
  split; [reflexivity|].
  exact (Resolve_name_read_back
           (NewFileIndexFromSlice ["a.txt"; "a_copy3.txt"]) "a.txt" 3 eq_refl).
Defined.

(** ** The seeded counters *)

(** The largest element of a list of numbers, or 0: it is not negative,
    it bounds every element, and it is 0 or an element. *)
Lemma fold_right_max_char (L : list Z) :
  0 <= fold_right Z.max 0 L
  /\ (forall x, x ∈ L -> x <= fold_right Z.max 0 L)
  /\ (fold_right Z.max 0 L = 0 \/ fold_right Z.max 0 L ∈ L).
Proof.
  induction L as [|y L (IH0 & IHle & IHin)]; simpl.
  - split; [done|]. split; [|by left]. intros x Hx. by apply elem_of_nil in Hx.
  - split; [lia|]. split.
    + intros x [->|Hx]%elem_of_cons; [lia|]. specialize (IHle x Hx). lia.
    + destruct (Z.max_spec y (fold_right Z.max 0 L)) as [[_ ->]|[_ ->]].
      * destruct IHin as [->|Hin]; [by left | right; by right].
      * right. by left.
Qed.

Lemma latestCopy_of_char filenames F :
  0 <= latestCopy_of filenames F
  /\ (forall C n, C ∈ filenames ->
        copyNumber (getBareFilename F) C = Some n ->
        n <= latestCopy_of filenames F)
  /\ (latestCopy_of filenames F = 0
      \/ exists C, C ∈ filenames
           /\ copyNumber (getBareFilename F) C
              = Some (latestCopy_of filenames F)).
Proof.
  unfold latestCopy_of. rewrite scan_fold.
  destruct (fold_right_max_char
              (omap (copyNumber (getBareFilename F)) filenames))
    as (H0 & Hle & Hin).
  split; [done|]. split.
  - intros C n HC Hn. apply Hle. apply list_elem_of_omap. eauto.
  - destruct Hin as [Hz|Hin]; [by left|]. right.
    apply list_elem_of_omap in Hin as (C & HC & Hn). eauto.
Qed.

(** The keys of a seeded index are the input names. *)
Theorem NewFileIndexFromSlice_keys (filenames : list string) (F : string) :
  is_Some (index (NewFileIndexFromSlice filenames) !! F) <-> F ∈ filenames.
Proof.
  rewrite NewFileIndexFromSlice_lookup. case_bool_decide as Hin.
  - split; [done | by eexists].
  - split; [by intros [? ?] | done].
Qed.

(** A seeded counter is never negative and fits [int]. *)
Theorem seeded_counter_range
    (filenames : list string) (F : string) (k : Z) :
  index (NewFileIndexFromSlice filenames) !! F = Some k ->
  0 <= k <= max_int.
Proof.
  rewrite NewFileIndexFromSlice_lookup. case_bool_decide; [|done].
  intros [= <-].
  destruct (latestCopy_of_char filenames F) as (H0 & _ & [->|(C & _ & HC)]).
  - done.
  - split; [done|]. apply copyNumber_range in HC. apply HC.
Qed.

Lemma seeded_counter_range_witness :
  index (NewFileIndexFromSlice ["x"; "x_copy9223372036854775807"]) !! "x"
  = Some max_int
  /\ 0 <= max_int <= max_int.
Proof.
  split; [reflexivity|].
  apply (seeded_counter_range
           ["x"; "x_copy9223372036854775807"] "x" max_int).
  reflexivity.
Defined.

(** The seeded index depends on the set of input names only, not on their
    order or on repetitions. *)
Theorem NewFileIndexFromSlice_set (l l' : list string) :
  (forall name, name ∈ l <-> name ∈ l') ->
  NewFileIndexFromSlice l = NewFileIndexFromSlice l'.
Proof.
  intros Hset.
  enough (Heq : index (NewFileIndexFromSlice l)
                = index (NewFileIndexFromSlice l')).
  { destruct (NewFileIndexFromSlice l), (NewFileIndexFromSlice l').
    simpl in Heq. by rewrite Heq. }
  apply map_eq. intros F. rewrite !NewFileIndexFromSlice_lookup.
  rewrite (bool_decide_ext _ _ (Hset F)). case_bool_decide; [|done].
  f_equal.
  destruct (latestCopy_of_char l F) as (H0 & Hle & Hin).
  destruct (latestCopy_of_char l' F) as (H0' & Hle' & Hin').
  apply Z.le_antisymm.
  - destruct Hin as [->|(C & HC & Hn)]; [done|].
    apply (Hle' C); [by apply Hset | done].
  - destruct Hin' as [->|(C & HC & Hn)]; [done|].
    apply (Hle C); [by apply Hset | done].
Qed.

Lemma NewFileIndexFromSlice_set_witness :
  (forall name, name ∈ ["a.txt"; "a_copy2.txt"]
                <-> name ∈ ["a_copy2.txt"; "a.txt"; "a_copy2.txt"])
  /\ NewFileIndexFromSlice ["a.txt"; "a_copy2.txt"]
     = NewFileIndexFromSlice ["a_copy2.txt"; "a.txt"; "a_copy2.txt"].
Proof.
  assert (H : forall name, name ∈ ["a.txt"; "a_copy2.txt"]
                <-> name ∈ ["a_copy2.txt"; "a.txt"; "a_copy2.txt"]).
  { intros name. rewrite !elem_of_cons, !elem_of_nil. tauto. }
  split; [exact H|].
  exact (NewFileIndexFromSlice_set _ _ H).
Defined.

(** More names in the directory never lower a seeded counter. *)
Theorem NewFileIndexFromSlice_mono (l l' : list string) (F : string) (k : Z) :
  (forall name, name ∈ l -> name ∈ l') ->
  index (NewFileIndexFromSlice l) !! F = Some k ->
  exists k', index (NewFileIndexFromSlice l') !! F = Some k' /\ k <= k'.
Proof.
  intros Hsub. rewrite !NewFileIndexFromSlice_lookup.
  case_bool_decide as Hin; [|done]. intros [= <-].
  rewrite bool_decide_eq_true_2 by by apply Hsub.
  eexists. split; [done|].
  destruct (latestCopy_of_char l F) as (_ & _ & Hmax).
  destruct (latestCopy_of_char l' F) as (H0' & Hle' & _).
  destruct Hmax as [->|(C & HC & Hn)]; [done|].
  apply (Hle' C); [by apply Hsub | done].
Qed.

Lemma NewFileIndexFromSlice_mono_witness :
  (forall name, name ∈ ["a.txt"; "a_copy2.txt"]
                -> name ∈ ["a_copy7.txt"; "a.txt"; "a_copy2.txt"])
  /\ index (NewFileIndexFromSlice ["a.txt"; "a_copy2.txt"]) !! "a.txt" = Some 2
  /\ exists k',
       index (NewFileIndexFromSlice ["a_copy7.txt"; "a.txt"; "a_copy2.txt"])
         !! "a.txt" = Some k'
       /\ 2 <= k'.
Proof.
  assert (H : forall name, name ∈ ["a.txt"; "a_copy2.txt"]
                -> name ∈ ["a_copy7.txt"; "a.txt"; "a_copy2.txt"]).
  { intros name Hn. by right. }
  split; [exact H|]. split; [reflexivity|].
  exact (NewFileIndexFromSlice_mono _ _ "a.txt" 2 H eq_refl).
Defined.

(** A generated name that is in the directory is covered by the seeded
    counter. *)
Lemma latestCopy_of_covers filenames F n :
  0 <= n <= max_int -> copy_name F n ∈ filenames ->
  n <= latestCopy_of filenames F.
Proof.
  intros Hn Hin.
  destruct (latestCopy_of_char filenames F) as (_ & Hle & _).
  apply (Hle (copy_name F n)); [done|].
  apply copyNumber_copy_name. unfold int_range, min_int. lia.
Qed.

(** The seeded counter of a name is at least the number of each of its
    copies in the directory. *)
Theorem NewFileIndexFromSlice_covers_copies
    (filenames : list string) (F : string) (n : Z) :
  F ∈ filenames ->
  0 <= n <= max_int ->
  copy_name F n ∈ filenames ->
  exists k, index (NewFileIndexFromSlice filenames) !! F = Some k /\ n <= k.
Proof.
  intros HF Hn Hcopy. rewrite NewFileIndexFromSlice_lookup.
  rewrite bool_decide_eq_true_2 by done.
  eexists. split; [done|]. by apply latestCopy_of_covers.
Qed.

Lemma NewFileIndexFromSlice_covers_copies_witness :
  "a.tar.gz" ∈ ["a.tar_copy12.gz"; "a.tar.gz"]
  /\ 0 <= 12 <= max_int
  /\ copy_name "a.tar.gz" 12 ∈ ["a.tar_copy12.gz"; "a.tar.gz"]
  /\ exists k,
       index (NewFileIndexFromSlice ["a.tar_copy12.gz"; "a.tar.gz"])
         !! "a.tar.gz" = Some k
       /\ 12 <= k.
Proof.
  assert (H1 : "a.tar.gz" ∈ ["a.tar_copy12.gz"; "a.tar.gz"])
    by (right; left).
  assert (H2 : 0 <= 12 <= max_int) by (unfold max_int; lia).
  assert (H3 : copy_name "a.tar.gz" 12 ∈ ["a.tar_copy12.gz"; "a.tar.gz"])
    by (vm_compute; left).
  split; [exact H1|]. split; [exact H2|]. split; [exact H3|].
  exact (NewFileIndexFromSlice_covers_copies _ _ _ H1 H2 H3).
Defined.

(** The first collision on a seeded index yields a name that is not in
    the directory, unless the counter has reached [max_int]. *)
Lemma Resolve_seeded_fresh (filenames : list string) (F : string) (k : Z) :
  index (NewFileIndexFromSlice filenames) !! F = Some k ->
  k < max_int ->
  fst (Resolve (NewFileIndexFromSlice filenames) F) ∉ filenames.
Proof.
  intros Hk Hlt.
  pose proof (NewFileIndexFromSlice_lookup filenames F) as Hlook.
  rewrite Hk in Hlook. case_bool_decide; [|done]. injection Hlook as Hval.
  destruct (latestCopy_of_char filenames F) as (H0 & _ & _).
  rewrite (Resolve_present _ _ k Hk). simpl.
  rewrite int_add_1_exact by (unfold min_int; lia).
  intros Hin. apply latestCopy_of_covers in Hin; lia.
Qed.

Lemma Resolve_seeded_fresh_witness :
  index (NewFileIndexFromSlice ["a.txt"; "a_copy1.txt"; "a_copy2.png"])
    !! "a.txt" = Some 2
  /\ 2 < max_int
  /\ fst (Resolve
            (NewFileIndexFromSlice ["a.txt"; "a_copy1.txt"; "a_copy2.png"])
            "a.txt")
     ∉ ["a.txt"; "a_copy1.txt"; "a_copy2.png"].
Proof.
  split; [reflexivity|]. split; [reflexivity|].
  apply (Resolve_seeded_fresh
           ["a.txt"; "a_copy1.txt"; "a_copy2.png"] "a.txt" 2);
    reflexivity.
Defined.

(** ** More on [Resolve] *)

(** [Resolve] returns the requested name itself exactly when the name was
    not a key. *)
Theorem Resolve_unchanged_iff (fi : FileIndex) (filename : string) :
  fst (Resolve fi filename) = filename <-> index fi !! filename = None.
Proof.
  destruct (index fi !! filename) as [k|] eqn:Hk.
  - rewrite (Resolve_present _ _ k Hk). simpl. split; [|done].
    intros H. by apply copy_name_ne in H.
  - by rewrite (Resolve_absent _ _ Hk).
Qed.

(** A call adds the requested name and the returned name to the keys, and
    nothing else. *)
Lemma Resolve_dom (fi : FileIndex) (filename : string) :
  dom (index (snd (Resolve fi filename)))
  = {[ filename; fst (Resolve fi filename) ]} ∪ dom (index fi).
Proof.
  destruct (index fi !! filename) as [k|] eqn:Hk.
  - rewrite (Resolve_present _ _ k Hk). simpl.
    rewrite !dom_insert_L. apply set_eq. intros x.
    rewrite !elem_of_union, !elem_of_singleton. tauto.
  - rewrite (Resolve_absent _ _ Hk). simpl.
    rewrite dom_insert_L. apply set_eq. intros x.
    rewrite !elem_of_union, !elem_of_singleton. tauto.
Qed.

(** The returned name has the extension of the requested name. *)
Theorem Resolve_keeps_Ext (fi : FileIndex) (filename : string) :
  Ext (fst (Resolve fi filename)) = Ext filename.
Proof.
  destruct (index fi !! filename) as [k|] eqn:Hk.
  - rewrite (Resolve_present _ _ k Hk). simpl. apply Ext_copy_name.
  - by rewrite (Resolve_absent _ _ Hk).
Qed.

(** [n] successive requests for a key with counter [k] return the copies
    [k+1], ..., [k+n], as long as the counter does not pass [max_int]. *)
Lemma resolve_all_replicate (n : nat) (fi : FileIndex) (F : string) (k : Z) :
  index fi !! F = Some k ->
  min_int - 1 <= k -> k + Z.of_nat n <= max_int ->
  fst (resolve_all fi (replicate n F))
  = (fun i => copy_name F (k + Z.of_nat i)) <$> seq 1 n
  /\ index (snd (resolve_all fi (replicate n F))) !! F
     = Some (k + Z.of_nat n).
Proof.
  revert fi k. induction n as [|n IH]; intros fi k Hk Hlo Hhi.
  - simpl. by rewrite Z.add_0_r.
  - cbn [replicate resolve_all].
    rewrite (Resolve_present _ _ k Hk).
    rewrite int_add_1_exact by lia.
    set (fi1 := mkFileIndex _).
    assert (H1 : index fi1 !! F = Some (k + 1)).
    { subst fi1. simpl. rewrite lookup_insert_ne by apply copy_name_ne.
      apply lookup_insert_eq. }
    destruct (IH fi1 (k + 1) H1) as [Hnames Hidx]; [lia..|].
    destruct (resolve_all fi1 (replicate n F)) as [names fi2].
    simpl in *. split.
    + rewrite Hnames. f_equal.
      rewrite <- (fmap_S_seq 1 n), <- list_fmap_compose.
      apply list_fmap_ext. intros _ i _. simpl. f_equal. lia.
    + rewrite Hidx. f_equal. lia.
Qed.

(** Repeated requests for one key: the names returned are the copies
    [k+1], ..., [k+n] in order, and they are pairwise distinct. *)
Theorem resolve_all_same_key (n : nat) (fi : FileIndex) (F : string) (k : Z) :
  index fi !! F = Some k ->
  min_int <= k -> k + Z.of_nat n <= max_int ->
  fst (resolve_all fi (replicate n F))
  = (fun i => copy_name F (k + Z.of_nat i)) <$> seq 1 n
  /\ NoDup (fst (resolve_all fi (replicate n F)))
  /\ index (snd (resolve_all fi (replicate n F))) !! F
     = Some (k + Z.of_nat n).
Proof.
  intros Hk Hlo Hhi.
  destruct (resolve_all_replicate n fi F k Hk) as [Hnames Hidx]; [lia..|].
  split; [done|]. split; [|done].
  rewrite Hnames. apply NoDup_fmap_2; [|apply NoDup_seq].
  intros i j Hij. apply copy_name_inj in Hij. lia.
Qed.

Lemma resolve_all_same_key_witness :
  index (NewFileIndexFromSlice ["a.txt"; "a_copy3.txt"]) !! "a.txt" = Some 3
  /\ min_int <= 3
  /\ 3 + Z.of_nat 2 <= max_int
  /\ fst (resolve_all (NewFileIndexFromSlice ["a.txt"; "a_copy3.txt"])
            ["a.txt"; "a.txt"])
     = ["a_copy4.txt"; "a_copy5.txt"].
Proof.
  split; [reflexivity|]. split; [by vm_compute|]. split; [by vm_compute|].
  destruct (resolve_all_same_key 2
              (NewFileIndexFromSlice ["a.txt"; "a_copy3.txt"]) "a.txt" 3)
    as (Hnames & _ & _); [reflexivity | by vm_compute | by vm_compute |].
  exact Hnames.
Defined.

(** A name that is not a key, requested [n+1] times: the name itself and
    then its copies 1, ..., [n], pairwise distinct. *)
Theorem resolve_all_fresh_name (n : nat) (fi : FileIndex) (F : string) :
  index fi !! F = None ->
  Z.of_nat n <= max_int ->
  fst (resolve_all fi (replicate (S n) F))
  = F :: ((fun i => copy_name F (Z.of_nat i)) <$> seq 1 n)
  /\ NoDup (fst (resolve_all fi (replicate (S n) F))).
Proof.
  intros Hnone Hn. cbn [replicate resolve_all].
  rewrite (Resolve_absent _ _ Hnone).
  set (fi1 := mkFileIndex _).
  assert (H1 : index fi1 !! F = Some 0) by apply lookup_insert_eq.
  destruct (resolve_all_replicate n fi1 F 0 H1) as [Hnames _];
    [unfold min_int; lia | lia |].
  destruct (resolve_all fi1 (replicate n F)) as [names fi2].
  simpl in *. subst names.
  assert (Hsame : ((fun i => copy_name F (0 + Z.of_nat i)) <$> seq 1 n)
                  = ((fun i => copy_name F (Z.of_nat i)) <$> seq 1 n)).
  { apply list_fmap_ext. intros _ i _. by rewrite Z.add_0_l. }
  rewrite Hsame. split; [done|].
  apply NoDup_cons. split.
  - intros (i & Hi & _)%list_elem_of_fmap. symmetry in Hi.
    by apply copy_name_ne in Hi.
  - apply NoDup_fmap_2; [|apply NoDup_seq].
    intros i j Hij. apply copy_name_inj in Hij. lia.
Qed.

Lemma resolve_all_fresh_name_witness :
  index (NewFileIndexFromSlice []) !! "notes.txt" = None
  /\ Z.of_nat 2 <= max_int
  /\ fst (resolve_all (NewFileIndexFromSlice [])
            ["notes.txt"; "notes.txt"; "notes.txt"])
     = ["notes.txt"; "notes_copy1.txt"; "notes_copy2.txt"].
Proof.
  split; [reflexivity|]. split; [by vm_compute|].
  destruct (resolve_all_fresh_name 2 (NewFileIndexFromSlice []) "notes.txt")
    as (Hnames & _); [reflexivity | by vm_compute |].
  exact Hnames.
Defined.

(** After a sequence of calls the keys are the keys before, the requested
    names and the returned names. *)
Theorem resolve_all_dom (requests : list string) (fi : FileIndex) :
  dom (index (snd (resolve_all fi requests)))
  = dom (index fi) ∪ list_to_set requests
    ∪ list_to_set (fst (resolve_all fi requests)).
Proof.
  revert fi. induction requests as [|r rs IH]; intros fi; simpl.
  - apply set_eq. intros x.
    rewrite !elem_of_union, elem_of_empty. tauto.
  - pose proof (Resolve_dom fi r) as Hdom.
    destruct (Resolve fi r) as [name fi1]. simpl in Hdom.
    specialize (IH fi1).
    destruct (resolve_all fi1 rs) as [names fi2]. simpl in *.
    rewrite IH, Hdom. apply set_eq. intros x.
    rewrite !elem_of_union, !elem_of_singleton. tauto.
Qed.

(** ** More on the connection handler *)

Lemma receiveFile_scanned env w filename :
  env_scan env = Some filename ->
  receiveFile env w
  = close_con
      (store_stream env (fst (Resolve (w_index w) filename))
         ((if env_send_ok env
           then send (fst (Resolve (w_index w) filename))
           else log LogNotSent)
            (set_index (snd (Resolve (w_index w) filename)) w))).
Proof.
  intros Hscan. unfold receiveFile. rewrite Hscan.
  destruct (Resolve (w_index w) filename) as [name fi]. simpl.
  by destruct (env_send_ok env).
Qed.

(** What the loop has written is the content before the loop followed by
    the first chunks read, in order. *)
Lemma receive_loop_chunks reads last write_ok i content fileSize :
  exists j,
    fst (receive_loop reads last write_ok i content fileSize)
    = (content ++ concat (fst <$> take j reads))%list.
Proof.
  revert i content fileSize.
  induction reads as [|[chunk err] reads IH]; intros i content fileSize.
  - exists 0%nat. simpl. rewrite app_nil_r. by destruct last.
  - simpl. destruct (length chunk =? 0)%nat.
    + exists 0%nat. simpl. rewrite app_nil_r. by destruct err as [[]|].
    + destruct (write_ok i).
      * destruct (IH (S i) (content ++ chunk)%list
                    (int_add fileSize (Z.of_nat (length chunk)))) as [j Hj].
        exists (S j). rewrite Hj. simpl. by rewrite <- app_assoc.
      * exists 0%nat. simpl. by rewrite app_nil_r.
Qed.

Lemma concat_take_prefix {A} (l : list (list A)) (j : nat) :
  concat (take j l) `prefix_of` concat l.
Proof.
  rewrite <- (take_drop j l) at 2. rewrite concat_app.
  by apply prefix_app_r.
Qed.

(** A stream of non-empty reads that ends with [io.EOF], with every
    write succeeding, is stored whole; an error that comes with data is
    not looked at. *)
Lemma receive_loop_clean reads write_ok i content fileSize :
  Forall (fun r => fst r <> []) reads ->
  (forall k, write_ok k = true) ->
  0 <= fileSize ->
  fileSize + Z.of_nat (length (concat (fst <$> reads))) <= max_int ->
  receive_loop reads EOF write_ok i content fileSize
  = ((content ++ concat (fst <$> reads))%list,
     Some (fileSize + Z.of_nat (length (concat (fst <$> reads))))).
Proof.
  intros Hne Hw. revert i content fileSize.
  induction Hne as [|[chunk err] reads Hchunk Hne IH];
    intros i content fileSize H0 Hmax.
  - simpl. by rewrite app_nil_r, Z.add_0_r.
  - rewrite fmap_cons, concat_cons, List.length_app in *.
    cbn [fst] in *. cbn [receive_loop].
    destruct chunk as [|b chunk]; [done|].
    cbn [length Nat.eqb]. rewrite Hw.
    set (rest := length (concat (fst <$> reads))) in *.
    cbn [length] in Hmax.
    unfold int_add. rewrite int_wrap_id by (unfold int_range, min_int; lia).
    rewrite IH by lia.
    rewrite <- app_assoc. do 2 f_equal. lia.
Qed.



Lemma receiveFile_files env w filename :
  env_scan env = Some filename ->
  w_files (receiveFile env w)
  = if env_create_ok env
    then <[fst (Resolve (w_index w) filename) :=
             fst (receive_loop (env_reads env) (env_read_last env)
                    (env_write_ok env) 0 [] 0)]> (w_files w)
    else w_files w.
Proof.
  intros Hscan. rewrite (receiveFile_scanned env w filename Hscan). simpl.
  rewrite store_stream_files. by destruct (env_send_ok env).
Qed.



(** Whatever fails during the transfer, the file under the resolved name
    holds a prefix of the decompressed stream. *)
Theorem receiveFile_stored_prefix (env : Env) (w : World) (filename : string) :
  env_scan env = Some filename ->
  env_create_ok env = true ->
  exists stored,
    w_files (receiveFile env w) !! fst (Resolve (w_index w) filename)
    = Some stored
    /\ stored `prefix_of` concat (fst <$> env_reads env).
Proof.
  intros Hscan Hcreate.
  rewrite (receiveFile_files env w filename Hscan), Hcreate.
  rewrite lookup_insert_eq. eexists. split; [done|].
  destruct (receive_loop_chunks (env_reads env) (env_read_last env)
              (env_write_ok env) 0 [] 0) as [j ->].
  rewrite List.app_nil_l, fmap_take. apply concat_take_prefix.
Qed.

Lemma receiveFile_stored_prefix_witness :
  env_scan example_env_no_reply = Some "notes.txt"
  /\ env_create_ok example_env_no_reply = true
  /\ exists stored,
       w_files (receiveFile example_env_no_reply example_world)
         !! "notes_copy1.txt" = Some stored
       /\ stored `prefix_of` ["h"%byte; "i"%byte].
Proof.
  split; [reflexivity|]. split; [reflexivity|].
  exact (receiveFile_stored_prefix example_env_no_reply example_world
           "notes.txt" eq_refl eq_refl).
Defined.

(** A transfer in which the file is created, every read brings data,
    every write succeeds and the stream ends with [io.EOF] stores the
    whole stream and logs its length last; an error returned together
    with data is not looked at. *)
Theorem receiveFile_clean_transfer (env : Env) (w : World) (filename : string) :
  env_scan env = Some filename ->
  env_create_ok env = true ->
  Forall (fun r => fst r <> []) (env_reads env) ->
  env_read_last env = EOF ->
  (forall k, env_write_ok env k = true) ->
  Z.of_nat (length (concat (fst <$> env_reads env))) <= max_int ->
  w_files (receiveFile env w) !! fst (Resolve (w_index w) filename)
  = Some (concat (fst <$> env_reads env))
  /\ last (w_log (receiveFile env w))
     = Some (LogReceived (fst (Resolve (w_index w) filename))
               (Z.of_nat (length (concat (fst <$> env_reads env))))).
Proof.
  intros Hscan Hcreate Hreads Hlast Hwrite Hlen.
  pose proof (receive_loop_clean (env_reads env) (env_write_ok env) 0 [] 0
                Hreads Hwrite) as Hloop.
  rewrite Z.add_0_l in Hloop. specialize (Hloop ltac:(done) Hlen).
  split.
  - rewrite (receiveFile_files env w filename Hscan), Hcreate.
    rewrite lookup_insert_eq, Hlast, Hloop. done.
  - rewrite (receiveFile_scanned env w filename Hscan).
    unfold store_stream. rewrite Hcreate, Hlast, Hloop. simpl.
    destruct (env_zclose_ok env); simpl; apply last_snoc.
Qed.

Lemma receiveFile_clean_transfer_witness :
  env_scan example_env_clean = Some "notes.txt"
  /\ env_create_ok example_env_clean = true
  /\ Forall (fun r => fst r <> []) (env_reads example_env_clean)
  /\ env_read_last example_env_clean = EOF
  /\ (forall k, env_write_ok example_env_clean k = true)
  /\ Z.of_nat (length (concat (fst <$> env_reads example_env_clean)))
     <= max_int
  /\ w_files (receiveFile example_env_clean example_world)
       !! "notes_copy1.txt" = Some ["h"%byte; "i"%byte]
  /\ last (w_log (receiveFile example_env_clean example_world))
     = Some (LogReceived "notes_copy1.txt" 2).
Proof.
  assert (H3 : Forall (fun r : list byte * option error => fst r <> [])
                 (env_reads example_env_clean)).
  { repeat constructor; done. }
  assert (H5 : forall k, env_write_ok example_env_clean k = true) by done.
  assert (H6 : Z.of_nat (length (concat (fst <$> env_reads example_env_clean)))
               <= max_int) by (by vm_compute).
  split; [reflexivity|]. split; [reflexivity|]. split; [exact H3|].
  split; [reflexivity|]. split; [exact H5|]. split; [exact H6|].
  exact (receiveFile_clean_transfer example_env_clean example_world
           "notes.txt" eq_refl eq_refl H3 eq_refl H5 H6).
Defined.

(** When [os.Create] fails the handler stops there: no file is touched,
    the failure is the last log entry, and the resolved name stays
    reserved in the index. *)
Theorem receiveFile_create_failure (env : Env) (w : World) (filename : string) :
  env_scan env = Some filename ->
  env_create_ok env = false ->
  w_files (receiveFile env w) = w_files w
  /\ last (w_log (receiveFile env w))
     = Some (LogNotCreated (fst (Resolve (w_index w) filename)))
  /\ index (w_index (receiveFile env w))
       !! fst (Resolve (w_index w) filename) = Some 0.
Proof.
  intros Hscan Hcreate. split; [|split].
  - by rewrite (receiveFile_files env w filename Hscan), Hcreate.
  - rewrite (receiveFile_scanned env w filename Hscan).
    unfold store_stream. rewrite Hcreate. simpl. apply last_snoc.
  - rewrite (receiveFile_scanned env w filename Hscan). simpl.
    rewrite store_stream_index.
    destruct (env_send_ok env); simpl; apply Resolve_records_result.
Qed.

Lemma receiveFile_create_failure_witness :
  env_scan example_env_no_create = Some "notes.txt"
  /\ env_create_ok example_env_no_create = false
  /\ w_files (receiveFile example_env_no_create example_world) = ∅
  /\ index (w_index (receiveFile example_env_no_create example_world))
       !! "notes_copy1.txt" = Some 0.
Proof.
  split; [reflexivity|]. split; [reflexivity|].
  destruct (receiveFile_create_failure example_env_no_create example_world
              "notes.txt" eq_refl eq_refl) as (Hf & _ & Hi).
  split; [exact Hf | exact Hi].
Defined.

(** ** From startup to the first upload *)




(** ** Copies of one name across a restart *)

Lemma resolve_all_fresh_names (n : nat) (fi : FileIndex) (F : string) :
  index fi !! F = None ->
  Z.of_nat n <= max_int ->
  fst (resolve_all fi (replicate (S n) F))
  = F :: ((fun i => copy_name F (Z.of_nat i)) <$> seq 1 n).
Proof.
  intros Hnone Hn. cbn [replicate resolve_all].
  rewrite (Resolve_absent _ _ Hnone).
  set (fi1 := mkFileIndex _).
  assert (H1 : index fi1 !! F = Some 0) by apply lookup_insert_eq.
  destruct (resolve_all_replicate n fi1 F 0 H1) as [Hnames _];
    [unfold min_int; lia | lia |].
  destruct (resolve_all fi1 (replicate n F)) as [names fi2].
  simpl in *. by subst names.
Qed.

(** The seeding scan on a name followed by its copies 1, ..., [n]. *)
Lemma latestCopy_of_copies (n : nat) (F : string) :
  Z.of_nat n <= max_int ->
  latestCopy_of (F :: ((fun i => copy_name F (Z.of_nat i)) <$> seq 1 n)) F
  = Z.of_nat n.
Proof.
  intros Hn.
  set (names := F :: ((fun i => copy_name F (Z.of_nat i)) <$> seq 1 n)).
  destruct (latestCopy_of_char names F) as (H0 & Hle & Hmax).
  apply Z.le_antisymm.
  - destruct Hmax as [->|(C & HC & Hnum)]; [lia|].
    apply elem_of_cons in HC as [->|HC].
    + pose proof (copyNumber_self F) as Hown. congruence.
    + apply list_elem_of_fmap in HC as (i & -> & Hi).
      apply elem_of_seq in Hi.
      rewrite copyNumber_copy_name in Hnum
        by (unfold int_range, min_int; lia).
      injection Hnum as <-. lia.
  - destruct n as [|n]; [done|].
    apply (Hle (copy_name F (Z.of_nat (S n)))).
    + right. apply list_elem_of_fmap. exists (S n). split; [done|].
      apply elem_of_seq. lia.
    + apply copyNumber_copy_name. unfold int_range, min_int. lia.
Qed.

(** A restart finds the counter again: after [n] collisions on a name
    that was free, seeding from the names that were handed out gives that
    name the counter [n]. *)
Theorem reseed_recovers_counter (n : nat) (fi : FileIndex) (F : string) :
  index fi !! F = None ->
  Z.of_nat n <= max_int ->
  index (NewFileIndexFromSlice (fst (resolve_all fi (replicate (S n) F)))) !! F
  = index (snd (resolve_all fi (replicate (S n) F))) !! F
  /\ index (snd (resolve_all fi (replicate (S n) F))) !! F
     = Some (Z.of_nat n).
Proof.
  intros Hnone Hn.
  assert (Hafter : index (snd (resolve_all fi (replicate (S n) F))) !! F
                   = Some (Z.of_nat n)).
  { cbn [replicate resolve_all]. rewrite (Resolve_absent _ _ Hnone).
    set (fi1 := mkFileIndex _).
    assert (H1 : index fi1 !! F = Some 0) by apply lookup_insert_eq.
    destruct (resolve_all_replicate n fi1 F 0 H1) as [_ Hidx];
      [unfold min_int; lia | lia |].
    destruct (resolve_all fi1 (replicate n F)) as [names fi2].
    simpl in *. by rewrite Hidx, Z.add_0_l. }
  split; [|done]. rewrite Hafter.
  rewrite resolve_all_fresh_names by done.
  rewrite NewFileIndexFromSlice_lookup.
  rewrite bool_decide_eq_true_2 by left.
  by rewrite latestCopy_of_copies.
Qed.

Lemma reseed_recovers_counter_witness :
  index (NewFileIndexFromSlice []) !! "notes.txt" = None
  /\ Z.of_nat 2 <= max_int
  /\ index (NewFileIndexFromSlice
              ["notes.txt"; "notes_copy1.txt"; "notes_copy2.txt"])
       !! "notes.txt" = Some 2.
Proof.
  split; [reflexivity|]. split; [by vm_compute|].
  destruct (reseed_recovers_counter 2 (NewFileIndexFromSlice []) "notes.txt")
    as (Hseed & Hafter); [reflexivity | by vm_compute |].
  rewrite Hafter in Hseed. exact Hseed.
Defined.

(** Repeated requests for a name of the directory never yield a name of
    the directory, as long as the counter does not pass [max_int]. *)
Theorem resolve_all_seeded_fresh
    (n : nat) (filenames : list string) (F : string) (k : Z) :
  index (NewFileIndexFromSlice filenames) !! F = Some k ->
  k + Z.of_nat n <= max_int ->
  Forall (fun name => name ∉ filenames)
    (fst (resolve_all (NewFileIndexFromSlice filenames) (replicate n F))).
Proof.
  intros Hk Hmax.
  pose proof (NewFileIndexFromSlice_lookup filenames F) as Hlook.
  rewrite Hk in Hlook. case_bool_decide; [|done]. injection Hlook as Hval.
  destruct (latestCopy_of_char filenames F) as (H0 & _ & _).
  destruct (resolve_all_replicate n _ F k Hk) as [-> _];
    [unfold min_int; lia | done |].
  apply Forall_fmap, Forall_seq. intros j Hj. simpl.
  intros Hin. apply latestCopy_of_covers in Hin; lia.
Qed.

Lemma resolve_all_seeded_fresh_witness :
  index (NewFileIndexFromSlice ["a.txt"; "a_copy1.txt"; "a_copy2.png"])
    !! "a.txt" = Some 2
  /\ 2 + Z.of_nat 2 <= max_int
  /\ Forall (fun name => name ∉ ["a.txt"; "a_copy1.txt"; "a_copy2.png"])
       ["a_copy3.txt"; "a_copy4.txt"].
Proof.
  split; [reflexivity|]. split; [by vm_compute|].
  apply (resolve_all_seeded_fresh 2
           ["a.txt"; "a_copy1.txt"; "a_copy2.png"] "a.txt" 2);
    [reflexivity | by vm_compute].
Defined.

(** A name that is not in the directory has no seeded counter, so its
    first copy can be a name of the directory. *)
Example Resolve_unlisted_name_hits_directory :
  fst (resolve_all (NewFileIndexFromSlice ["a_copy1.txt"]) ["a.txt"; "a.txt"])
  = ["a.txt"; "a_copy1.txt"].
Proof. vm_compute. reflexivity. Qed.
